(** * Optimarket bond pricer: a shallow embedding of
    [src/backend/services/bond_pricer.py] over the real numbers.

    Floating-point values of the Python source are idealised as [R]; every
    call to Python's [round(x, nd)] is kept, as round-half-to-even of the
    exact value at [nd] decimals ([py_round]).  [int(x)] on a float is
    truncation toward zero ([py_int]); [a ** b] with an integer exponent is
    [pow], with a float exponent [Rpower]. *)

From Stdlib Require Import Reals Psatz ZArith List Lia.
Import ListNotations.

Open Scope R_scope.

(** ** Python numeric primitives *)

(** Round half to even of a real to an integer. *)
Definition round_half_even (y : R) : Z :=
  let k := Int_part y in
  let fr := y - IZR k in
  match Rlt_dec fr (1 / 2) with
  | left _ => k
  | right _ =>
      match Rlt_dec (1 / 2) fr with
      | left _ => (k + 1)%Z
      | right _ => if Z.even k then k else (k + 1)%Z
      end
  end.

(** [round(x, nd)]: round half to even at [nd] decimal places. *)
Definition py_round (nd : nat) (x : R) : R :=
  IZR (round_half_even (x * 10 ^ nd)) / 10 ^ nd.

(** [int(x)] on a float: truncation toward zero. *)
Definition py_int (x : R) : Z :=
  if Rle_dec 0 x then Int_part x else (- Int_part (- x))%Z.

(** [max(a, b)]: Python returns [b] only when [b > a]. *)
Definition py_max (a b : R) : R :=
  if Rlt_dec a b then b else a.

(** [arr.sum()] of a one-dimensional array. *)
Definition np_sum (l : list R) : R := fold_right Rplus 0 l.

(** [np.arange(1, n + 1)]: empty when [n <= 0]. *)
Definition np_arange1 (n : Z) : list nat := seq 1 (Z.to_nat n).

(** [np.full(n, v)]. *)
Definition np_full (n : Z) (v : R) : list R := repeat v (Z.to_nat n).

(** [arr[-1] += v]. *)
Fixpoint add_last (v : R) (l : list R) : list R :=
  match l with
  | [] => []
  | [x] => [x + v]
  | x :: t => x :: add_last v t
  end.

(** Element-wise binary operation on two arrays of the same length. *)
Definition np_zip (f : R -> R -> R) (a b : list R) : list R :=
  map (fun p => f (fst p) (snd p)) (combine a b).

(** ** The result dictionary of [price_bond] *)

Record PricingResult := mkPricingResult {
  price : R;
  macaulay_duration : R;
  modified_duration : R;
  convexity : R;
  dv01 : R;
  current_yield : R;
  price_to_face : R;
  ytm_pct : R;
  coupon_pct : R
}.

(** ** [price_bond] *)

Section PriceBond.

Variables (face_value coupon_rate ytm maturity_years : R).

Definition n_periods : Z := py_int (maturity_years * 2).
Definition semi_coupon : R := face_value * coupon_rate / 2.
Definition semi_ytm : R := ytm / 2.

(** Lines 29-41: the zero-coupon / T-bill branch.  [discount_result] is the
    dictionary the code returns when this branch returns normally; the inputs on
    which the branch raises instead ([1 + ytm <= 0], [face_value = 0]) are
    singled out by [discount_checked] below, and there the values of
    [discount_result] (with [x / 0 = 0] and [Rpower]) mean nothing. *)
Definition price_discount : R := face_value / Rpower (1 + ytm) maturity_years.

Definition discount_result : PricingResult :=
  let price := price_discount in
  {| price := py_round 4 price;
     macaulay_duration := py_round 4 maturity_years;
     modified_duration := py_round 4 (maturity_years / (1 + ytm));
     convexity := 0;
     dv01 := py_round 4 (price * maturity_years / (1 + ytm) / 10000);
     current_yield := 0;
     price_to_face := py_round 4 (price / face_value * 100);
     ytm_pct := py_round 4 (ytm * 100);
     coupon_pct := py_round 4 (coupon_rate * 100) |}.

(** Lines 43-49: cash flows, discount factors, present values, price. *)
Definition periods : list nat := np_arange1 n_periods.
Definition cash_flows : list R := add_last face_value (np_full n_periods semi_coupon).
Definition discount_factors : list R :=
  map (fun i => (1 + semi_ytm) ^ i) periods.
Definition pv_cash_flows : list R := np_zip Rdiv cash_flows discount_factors.
Definition price_periodic : R := np_sum pv_cash_flows.

Definition periods_R : list R := map INR periods.

(** Lines 51-78: risk metrics of the periodic branch.  These are the values
    of the returned dictionary when every denominator is non-zero; where numpy
    divides by zero the code returns nan or inf instead, which
    [price_bond_checked] below records as [ReturnedNonFinite]. *)
Definition periodic_result : PricingResult :=
  let price := price_periodic in
  let mac_duration := np_sum (np_zip Rmult pv_cash_flows periods_R) / price / 2 in
  let mod_duration := mac_duration / (1 + semi_ytm) in
  let convexity_sum :=
    np_sum (np_zip Rmult (np_zip Rmult pv_cash_flows periods_R)
                         (map (fun p => p + 1) periods_R)) in
  let convexity := convexity_sum / (price * (1 + semi_ytm) ^ 2 * 4) in
  let dv01 := mod_duration * price / 10000 in
  let annual_coupon := face_value * coupon_rate in
  let current_yield := if Rlt_dec 0 price then annual_coupon / price else 0 in
  {| price := py_round 4 price;
     macaulay_duration := py_round 4 mac_duration;
     modified_duration := py_round 4 mod_duration;
     convexity := py_round 4 convexity;
     dv01 := py_round 4 dv01;
     current_yield := py_round 4 (current_yield * 100);
     price_to_face := py_round 4 (price / face_value * 100);
     ytm_pct := py_round 4 (ytm * 100);
     coupon_pct := py_round 4 (coupon_rate * 100) |}.

Definition price_bond : PricingResult :=
  if Z.eqb n_periods 0 then discount_result else periodic_result.

End PriceBond.

(** ** [stress_test_bond] *)

Module Scenario.
Record StressScenario := mkStressScenario {
  shock_bps : Z;
  shocked_ytm : R;
  price : R;
  pnl_per_bond : R;
  total_pnl : R;
  pnl_pct : R
}.
End Scenario.

Definition shocks : list Z := [-300; -200; -100; -50; 0; 50; 100; 200; 300]%Z.

Definition shocked_yield (ytm : R) (shock_bps : Z) : R :=
  py_max 0.0001 (ytm + IZR shock_bps / 10000).

(** One entry of the report (lines 92-104), as computed when no denominator is
    zero; the ZeroDivisionError and nan paths of line 103 are in
    [stress_test_bond_checked] below. *)
Definition stress_scenario (face_value coupon_rate ytm maturity_years quantity : R)
    (base : PricingResult) (shock_bps : Z) : Scenario.StressScenario :=
  let shocked_ytm := shocked_yield ytm shock_bps in
  let shocked_price := price_bond face_value coupon_rate shocked_ytm maturity_years in
  let pnl_per_bond := price shocked_price - price base in
  let total_pnl := pnl_per_bond * quantity in
  {| Scenario.shock_bps := shock_bps;
     Scenario.shocked_ytm := py_round 4 (shocked_ytm * 100);
     Scenario.price := price shocked_price;
     Scenario.pnl_per_bond := py_round 4 pnl_per_bond;
     Scenario.total_pnl := py_round 2 total_pnl;
     Scenario.pnl_pct := py_round 4 (pnl_per_bond / price base * 100) |}.

Definition stress_test_bond (face_value coupon_rate ytm maturity_years quantity : R)
    : list Scenario.StressScenario :=
  let base := price_bond face_value coupon_rate ytm maturity_years in
  map (stress_scenario face_value coupon_rate ytm maturity_years quantity base) shocks.

(** ** Exceptions and non-finite results

    The definitions above are total.  The Python code instead raises on some
    inputs, and its numpy branch produces nan or inf where it divides by zero.
    [outcome] records which of the three happens; a returned value carries
    the dictionary of the total model, whose numbers are meaningful only in
    the [Returned] case (in the [ReturnedNonFinite] case only its shape, such
    as the list of [shock_bps], is). *)

Inductive py_exc := ZeroDivisionError | TypeError | ValueError.

Inductive outcome (A : Type) :=
| Returned (a : A)
| ReturnedNonFinite (a : A)
| Raised (e : py_exc).

Arguments Returned {A} a.
Arguments ReturnedNonFinite {A} a.
Arguments Raised {A} e.

(** A [for] loop appending one result per element: the first exception
    stops the loop; a nan or inf in one entry does not. *)
Fixpoint seq_outcomes {A : Type} (l : list (outcome A)) : outcome (list A) :=
  match l with
  | [] => Returned []
  | o :: t =>
      match o with
      | Raised e => Raised e
      | Returned a =>
          match seq_outcomes t with
          | Returned v => Returned (a :: v)
          | ReturnedNonFinite v => ReturnedNonFinite (a :: v)
          | Raised e => Raised e
          end
      | ReturnedNonFinite a =>
          match seq_outcomes t with
          | Returned v | ReturnedNonFinite v => ReturnedNonFinite (a :: v)
          | Raised e => Raised e
          end
      end
  end.

(** Lines 29-41 on Python floats, in evaluation order.  Line 30:
    [(1 + ytm) ** maturity_years] is [0.0 ** m] when [1 + ytm = 0], which
    raises ZeroDivisionError for [m < 0] and is [0.0] for [m > 0], so that
    the division raises; for [m = 0] it is [1.0] and line 34 divides by
    [1 + ytm = 0].  When [1 + ytm < 0] and [m <> 0] ([m] is then not an
    integer, as [-0.5 < m < 0.5]) the power is a complex number and
    [round] raises TypeError at line 32; for [m = 0] it is [1.0], as
    [Rpower _ 0] is.  Otherwise line 38 raises ZeroDivisionError when
    [face_value = 0], and the values are finite. *)
Definition discount_checked (face_value coupon_rate ytm maturity_years : R)
    : outcome PricingResult :=
  let rest :=
    if Req_EM_T face_value 0 then Raised ZeroDivisionError
    else Returned (discount_result face_value coupon_rate ytm maturity_years) in
  if Req_EM_T (1 + ytm) 0 then Raised ZeroDivisionError
  else if Rlt_dec (1 + ytm) 0 then
    (if Req_EM_T maturity_years 0 then rest else Raised TypeError)
  else rest.

(** Lines 43-78 on numpy values.  [np.full] raises ValueError for a negative
    [n_periods] (line 44); past it numpy arithmetic raises nothing, and the
    result has a nan or inf exactly when a denominator is zero: the discount
    factor [1 + semi_ytm] (lines 47-48, 55, 59), the price (lines 52, 59) or
    the face value (line 75).  Line 66 is guarded. *)
Definition periodic_checked (face_value coupon_rate ytm maturity_years : R)
    : outcome PricingResult :=
  if Z.ltb (n_periods maturity_years) 0 then Raised ValueError
  else
    let r := periodic_result face_value coupon_rate ytm maturity_years in
    if Req_EM_T (1 + semi_ytm ytm) 0 then ReturnedNonFinite r
    else if Req_EM_T (price_periodic face_value coupon_rate ytm maturity_years) 0
    then ReturnedNonFinite r
    else if Req_EM_T face_value 0 then ReturnedNonFinite r
    else Returned r.

Definition price_bond_checked (face_value coupon_rate ytm maturity_years : R)
    : outcome PricingResult :=
  if Z.eqb (n_periods maturity_years) 0
  then discount_checked face_value coupon_rate ytm maturity_years
  else periodic_checked face_value coupon_rate ytm maturity_years.

(** One iteration of lines 92-104.  The shocked call may raise; line 103
    divides by [base['price']], a Python float in the discount branch
    (ZeroDivisionError when it is [0.0]) and a numpy float64 in the periodic
    branch (nan or inf, no exception).  Both calls take the same branch, as
    [n_periods] depends on [maturity_years] only. *)
Definition stress_scenario_checked (face_value coupon_rate ytm maturity_years quantity : R)
    (base : outcome PricingResult) (shock_bps : Z) : outcome Scenario.StressScenario :=
  let b := price_bond face_value coupon_rate ytm maturity_years in
  let sc := stress_scenario face_value coupon_rate ytm maturity_years quantity b shock_bps in
  match price_bond_checked face_value coupon_rate (shocked_yield ytm shock_bps)
          maturity_years with
  | Raised e => Raised e
  | ReturnedNonFinite _ => ReturnedNonFinite sc
  | Returned _ =>
      match base with
      | Returned _ =>
          if Req_EM_T (price b) 0 then
            (if Z.eqb (n_periods maturity_years) 0 then Raised ZeroDivisionError
             else ReturnedNonFinite sc)
          else Returned sc
      | _ => ReturnedNonFinite sc
      end
  end.

(** Lines 87-106: the base call (line 87) may raise; then the loop. *)
Definition stress_test_bond_checked (face_value coupon_rate ytm maturity_years quantity : R)
    : outcome (list Scenario.StressScenario) :=
  match price_bond_checked face_value coupon_rate ytm maturity_years with
  | Raised e => Raised e
  | base =>
      seq_outcomes
        (map (stress_scenario_checked face_value coupon_rate ytm maturity_years quantity base)
             shocks)
  end.

(** ** Properties of [py_round] *)

Lemma Int_part_le_mono (x y : R) : x <= y -> (Int_part x <= Int_part y)%Z.
Proof.
  intros Hxy.
  destruct (base_Int_part x) as [Hx1 Hx2], (base_Int_part y) as [Hy1 Hy2].
  destruct (Z_le_gt_dec (Int_part x) (Int_part y)) as [|Hgt]; [assumption|].
  assert (Hle : (Int_part y + 1 <= Int_part x)%Z) by lia.
  apply IZR_le in Hle; rewrite plus_IZR in Hle; lra.
Qed.

Lemma Int_part_IZR (k : Z) : Int_part (IZR k) = k.
Proof. symmetry; apply Int_part_spec; lra. Qed.

Lemma round_half_even_close (y : R) : Rabs (IZR (round_half_even y) - y) <= 1 / 2.
Proof.
  destruct (base_Int_part y) as [H1 H2].
  unfold round_half_even.
  destruct (Rlt_dec _ _) as [Hlt|Hge].
  - apply Rabs_le; lra.
  - destruct (Rlt_dec _ _) as [Hgt|Hle].
    + rewrite plus_IZR; apply Rabs_le; lra.
    + destruct (Z.even _); try rewrite plus_IZR; apply Rabs_le; lra.
Qed.

Lemma round_half_even_IZR (k : Z) : round_half_even (IZR k) = k.
Proof.
  unfold round_half_even; rewrite Int_part_IZR.
  destruct (Rlt_dec _ _) as [|Hn]; [reflexivity|].
  exfalso; apply Hn; lra.
Qed.

Lemma round_half_even_mono (x y : R) :
  x <= y -> (round_half_even x <= round_half_even y)%Z.
Proof.
  intros Hxy.
  pose proof (Int_part_le_mono x y Hxy) as Hk.
  destruct (base_Int_part x) as [Hx1 Hx2], (base_Int_part y) as [Hy1 Hy2].
  assert (Hcase : (Int_part x < Int_part y)%Z \/ Int_part x = Int_part y) by lia.
  unfold round_half_even.
  destruct Hcase as [Hlt|Heq].
  - repeat destruct (Rlt_dec _ _); repeat destruct (Z.even _); lia.
  - rewrite <- Heq.
    repeat destruct (Rlt_dec _ _); repeat destruct (Z.even _);
      try lia; exfalso; lra.
Qed.

Lemma pow10_pos (nd : nat) : 0 < 10 ^ nd.
Proof. apply pow_lt; lra. Qed.

Lemma py_round_IZR (nd : nat) (k : Z) : py_round nd (IZR k / 10 ^ nd) = IZR k / 10 ^ nd.
Proof.
  pose proof (pow10_pos nd).
  unfold py_round.
  replace (IZR k / 10 ^ nd * 10 ^ nd) with (IZR k) by (field; lra).
  now rewrite round_half_even_IZR.
Qed.

Lemma py_round_0 (nd : nat) : py_round nd 0 = 0.
Proof.
  pose proof (pow10_pos nd).
  replace 0 with (IZR 0 / 10 ^ nd) by (simpl; field; lra).
  apply py_round_IZR.
Qed.

Lemma py_round_error (nd : nat) (x : R) :
  Rabs (py_round nd x - x) <= / 2 / 10 ^ nd.
Proof.
  pose proof (pow10_pos nd) as Hs.
  pose proof (round_half_even_close (x * 10 ^ nd)) as Hc.
  unfold py_round.
  set (k := IZR (round_half_even (x * 10 ^ nd))) in *.
  replace (k / 10 ^ nd - x) with ((k - x * 10 ^ nd) / 10 ^ nd) by (field; lra).
  unfold Rdiv; rewrite Rabs_mult, (Rabs_right (/ 10 ^ nd)).
  - apply Rmult_le_compat_r; [apply Rlt_le, Rinv_0_lt_compat; lra | lra].
  - apply Rle_ge, Rlt_le, Rinv_0_lt_compat; lra.
Qed.

Lemma py_round_mono (nd : nat) (x y : R) : x <= y -> py_round nd x <= py_round nd y.
Proof.
  intros Hxy.
  pose proof (pow10_pos nd) as Hs.
  unfold py_round, Rdiv.
  apply Rmult_le_compat_r; [apply Rlt_le, Rinv_0_lt_compat; lra|].
  apply IZR_le, round_half_even_mono.
  apply Rmult_le_compat_r; lra.
Qed.

(** ** Branch selection in [price_bond] *)

Lemma n_periods_floor (m : R) : 0 <= m -> n_periods m = Int_part (m * 2).
Proof.
  intros Hm; unfold n_periods, py_int.
  destruct (Rle_dec 0 (m * 2)) as [|Hn]; [reflexivity|].
  exfalso; apply Hn; lra.
Qed.

Lemma n_periods_short (m : R) : 0 < m < 0.5 -> n_periods m = 0%Z.
Proof.
  intros Hm; rewrite n_periods_floor by lra.
  symmetry; apply Int_part_spec; simpl; lra.
Qed.

Lemma price_bond_discount_branch (f c y m : R) :
  n_periods m = 0%Z -> price_bond f c y m = discount_result f c y m.
Proof. intros H; unfold price_bond; now rewrite H. Qed.

Lemma price_bond_periodic_branch (f c y m : R) :
  n_periods m <> 0%Z -> price_bond f c y m = periodic_result f c y m.
Proof.
  intros H; unfold price_bond.
  destruct (Z.eqb_spec (n_periods m) 0); [contradiction|reflexivity].
Qed.

(** ** The cash-flow schedule as the spec states it *)

(** The spec's cash flow of period [i] of [N]: the semi-annual coupon, plus
    the principal in the final period. *)
Definition spec_cash_flow (face_value coupon_rate : R) (N i : nat) : R :=
  face_value * coupon_rate / 2 + (if Nat.eqb i N then face_value else 0).

(** The spec's price: [sum_{i=1..N} CF_i / (1 + ytm/2)^i]. *)
Definition spec_dcf_price (face_value coupon_rate ytm : R) (N : nat) : R :=
  fold_right Rplus 0
    (map (fun i => spec_cash_flow face_value coupon_rate N i / (1 + ytm / 2) ^ i)
         (seq 1 N)).

Lemma add_last_repeat_cons (v x : R) (k : nat) :
  add_last v (x :: repeat x (S k)) = x :: add_last v (repeat x (S k)).
Proof. reflexivity. Qed.

Lemma pv_schedule (f sc d : R) (k s : nat) :
  np_zip Rdiv (add_last f (repeat sc (S k))) (map (fun i => d ^ i) (seq s (S k))) =
  map (fun i => (sc + (if Nat.eqb i (s + k) then f else 0)) / d ^ i) (seq s (S k)).
Proof.
  revert s; induction k as [|k IH]; intros s.
  - cbn. now rewrite Nat.add_0_r, Nat.eqb_refl.
  - change (repeat sc (S (S k))) with (sc :: repeat sc (S k)).
    rewrite add_last_repeat_cons.
    change (seq s (S (S k))) with (s :: seq (S s) (S k)).
    unfold np_zip in *; cbn [map combine fst snd].
    f_equal.
    + replace (Nat.eqb s (s + S k)) with false
        by (symmetry; apply Nat.eqb_neq; lia).
      f_equal; ring.
    + rewrite IH. replace (S s + k)%nat with (s + S k)%nat by lia. reflexivity.
Qed.

Lemma price_periodic_dcf (f c y m : R) (N : nat) :
  n_periods m = Z.of_nat N -> (1 <= N)%nat ->
  price_periodic f c y m = spec_dcf_price f c y N.
Proof.
  intros HN H1.
  destruct N as [|k]; [lia|].
  unfold price_periodic, pv_cash_flows, cash_flows, discount_factors, periods,
    np_arange1, np_full, spec_dcf_price.
  rewrite HN, Nat2Z.id, pv_schedule.
  unfold np_sum, semi_ytm, semi_coupon, spec_cash_flow.
  replace (1 + k)%nat with (S k) by lia.
  reflexivity.
Qed.

(** ** The stress report *)

Lemma py_max_Rmax (a b : R) : py_max a b = Rmax a b.
Proof.
  unfold py_max, Rmax.
  destruct (Rlt_dec a b), (Rle_dec a b); lra.
Qed.

Lemma shocked_yield_Rmax (y : R) (s : Z) :
  shocked_yield y s = Rmax 0.0001 (y + IZR s / 10000).
Proof. apply py_max_Rmax. Qed.

Lemma in_stress_report (f c y m q : R) (sc : Scenario.StressScenario) :
  In sc (stress_test_bond f c y m q) ->
  exists s, In s shocks /\ sc = stress_scenario f c y m q (price_bond f c y m) s.
Proof.
  unfold stress_test_bond; rewrite in_map_iff.
  intros (s & Hs & Hin); exists s; auto.
Qed.

Lemma price_bond_price_rounded (f c y m : R) :
  exists x, price (price_bond f c y m) = py_round 4 x.
Proof.
  unfold price_bond; destruct (Z.eqb _ _); eexists; reflexivity.
Qed.

Lemma Rabs_le_split (x a : R) : Rabs x <= a -> - a <= x <= a.
Proof. unfold Rabs; destruct (Rcase_abs x); intros; lra. Qed.

Lemma py_round_small (nd : nat) (x : R) :
  0 <= x < / 2 / 10 ^ nd -> py_round nd x = 0.
Proof.
  intros Hx.
  pose proof (pow10_pos nd) as Hs.
  pose proof (round_half_even_close (x * 10 ^ nd)) as Hc.
  apply Rabs_le_split in Hc.
  assert (Hxs : x * 10 ^ nd < / 2).
  { replace (/ 2) with (/ 2 / 10 ^ nd * 10 ^ nd) by (field; lra).
    apply Rmult_lt_compat_r; lra. }
  assert (Hxs0 : 0 <= x * 10 ^ nd) by (apply Rmult_le_pos; lra).
  assert (Hk : round_half_even (x * 10 ^ nd) = 0%Z).
  { assert (H1 : (round_half_even (x * 10 ^ nd) < 1)%Z) by (apply lt_IZR; lra).
    assert (H2 : (-1 < round_half_even (x * 10 ^ nd))%Z) by (apply lt_IZR; lra).
    lia. }
  unfold py_round; rewrite Hk; simpl; unfold Rdiv; ring.
Qed.

Lemma price_bond_price_periodic (f c y m : R) (N : nat) :
  n_periods m = Z.of_nat N -> (1 <= N)%nat ->
  price (price_bond f c y m) = py_round 4 (spec_dcf_price f c y N).
Proof.
  intros HN H1.
  rewrite price_bond_periodic_branch by lia.
  unfold periodic_result; cbn [price].
  now rewrite (price_periodic_dcf _ _ _ _ N).
Qed.

(** ** C1: the periodic price is the discounted cash-flow sum *)

(** Claim C1: for a BondSpec with face_value > 0, coupon_rate >= 0,
    ytm > -1, maturity_years > 0 and N = floor(maturity_years * 2) >= 1, the
    price returned by [price_bond] is the sum over i = 1..N of CF_i / (1 +
    ytm/2)^i, where CF_i is the semi-annual coupon, plus the face value in the
    last period, rounded to 4 decimals. *)
Theorem price_bond_price_dcf (face_value coupon_rate ytm maturity_years : R) :
  0 < face_value -> 0 <= coupon_rate -> -1 < ytm -> 0 < maturity_years ->
  (1 <= Int_part (maturity_years * 2))%Z ->
  price (price_bond face_value coupon_rate ytm maturity_years) =
  py_round 4 (spec_dcf_price face_value coupon_rate ytm
                (Z.to_nat (Int_part (maturity_years * 2)))).
Proof.
  intros Hf Hc Hy Hm HN.
  assert (Hn : n_periods maturity_years = Int_part (maturity_years * 2))
    by (apply n_periods_floor; lra).
  apply price_bond_price_periodic; [rewrite Hn; lia | lia].
Qed.

Lemma price_bond_price_dcf_witness :
  (1 <= Int_part (10 * 2))%Z /\
  price (price_bond 1000 0.0726 0.0712 10) =
  py_round 4 (spec_dcf_price 1000 0.0726 0.0712 (Z.to_nat (Int_part (10 * 2)))).
Proof.
  assert (H20 : Int_part (10 * 2) = 20%Z)
    by (replace (10 * 2) with (IZR 20) by lra; apply Int_part_IZR).
  split; [rewrite H20; lia|].
  apply price_bond_price_dcf; [lra | lra | lra | lra | rewrite H20; lia].
Defined.

(** ** C2: the discount-instrument branch *)

(** Claim C2: for 0 < maturity_years < 0.5, [price_bond] takes the
    discount-instrument branch: price = face_value / (1 + ytm)^maturity_years,
    macaulay_duration = maturity_years, modified_duration = maturity_years /
    (1 + ytm), convexity = 0, dv01 = price * maturity_years / (1 + ytm) /
    10000 and current_yield = 0, every non-constant field rounded to 4
    decimals as all outputs are. *)
Theorem price_bond_discount_fields (face_value coupon_rate ytm maturity_years : R) :
  0 < face_value -> 0 <= coupon_rate -> -1 < ytm -> 0 < maturity_years < 0.5 ->
  let r := price_bond face_value coupon_rate ytm maturity_years in
  let p := face_value / Rpower (1 + ytm) maturity_years in
  price r = py_round 4 p /\
  macaulay_duration r = py_round 4 maturity_years /\
  modified_duration r = py_round 4 (maturity_years / (1 + ytm)) /\
  convexity r = 0 /\
  dv01 r = py_round 4 (p * maturity_years / (1 + ytm) / 10000) /\
  current_yield r = 0.
Proof.
  intros Hf Hc Hy Hm r p; subst r p.
  rewrite price_bond_discount_branch by (apply n_periods_short; lra).
  unfold discount_result, price_discount; cbn.
  repeat split.
Qed.

Lemma price_bond_discount_fields_witness :
  0 < 1000 /\ 0 <= 0 /\ -1 < 0.0685 /\ 0 < 0.25 < 0.5 /\
  convexity (price_bond 1000 0 0.0685 0.25) = 0 /\
  current_yield (price_bond 1000 0 0.0685 0.25) = 0.
Proof.
  destruct (price_bond_discount_fields 1000 0 0.0685 0.25) as (_ & _ & _ & H4 & _ & H6);
    [lra | lra | lra | lra |].
  repeat split; try lra; assumption.
Defined.

(** ** C3: the zero-shock scenario *)

Lemma shocked_yield_zero (y : R) : 0.0001 <= y -> shocked_yield y 0 = y.
Proof.
  intros Hy; rewrite shocked_yield_Rmax.
  replace (y + IZR 0 / 10000) with y by (simpl; field).
  unfold Rmax; destruct (Rle_dec 0.0001 y); lra.
Qed.

(** Claim C3, as amended: when ytm >= 0.0001 (the floor of the stress path is
    not active), the shock 0 scenario has the base price and a zero
    pnl_per_bond. *)
Theorem stress_zero_shock_base_price (face_value coupon_rate ytm maturity_years quantity : R)
    (sc : Scenario.StressScenario) :
  0.0001 <= ytm ->
  In sc (stress_test_bond face_value coupon_rate ytm maturity_years quantity) ->
  Scenario.shock_bps sc = 0%Z ->
  Scenario.price sc = price (price_bond face_value coupon_rate ytm maturity_years) /\
  Scenario.pnl_per_bond sc = 0.
Proof.
  intros Hy Hin H0.
  destruct (in_stress_report _ _ _ _ _ _ Hin) as (s & _ & ->).
  cbn in H0; subst s.
  unfold stress_scenario; cbn.
  rewrite shocked_yield_zero by assumption.
  split; [reflexivity|].
  rewrite Rminus_diag; apply py_round_0.
Qed.

Lemma stress_zero_shock_base_price_witness :
  0.0001 <= 0.0712 /\
  Scenario.price (stress_scenario 1000 0.0726 0.0712 10 1 (price_bond 1000 0.0726 0.0712 10) 0) =
  price (price_bond 1000 0.0726 0.0712 10).
Proof.
  split; [lra|].
  apply (stress_zero_shock_base_price 1000 0.0726 0.0712 10 1); [lra | | reflexivity].
  unfold stress_test_bond; cbn [map shocks]; right; right; right; right; left; reflexivity.
Defined.

(** Claim C3 fails at ytm = 0: the floor lifts the shock 0 yield to 0.0001, so
    the shock 0 scenario of a 1000 face, zero coupon, six-month bond is
    repriced below the base price 1000. *)
Lemma stress_zero_shock_counterexample :
  exists sc, In sc (stress_test_bond 1000 0 0 0.5 1) /\
    Scenario.shock_bps sc = 0%Z /\
    Scenario.price sc <> price (price_bond 1000 0 0 0.5).
Proof.
  exists (stress_scenario 1000 0 0 0.5 1 (price_bond 1000 0 0 0.5) 0).
  split; [unfold stress_test_bond; cbn [map shocks]; right; right; right; right; left;
          reflexivity|].
  split; [reflexivity|].
  assert (Hn : n_periods 0.5 = Z.of_nat 1).
  { rewrite n_periods_floor by lra.
    replace (0.5 * 2) with (IZR 1) by lra; apply Int_part_IZR. }
  assert (Hs : shocked_yield 0 0 = 0.0001).
  { rewrite shocked_yield_Rmax; unfold Rmax.
    destruct (Rle_dec _ _); simpl in *; lra. }
  unfold stress_scenario; cbn [Scenario.price]; rewrite Hs.
  rewrite !(price_bond_price_periodic _ _ _ _ 1 Hn) by lia.
  unfold spec_dcf_price, spec_cash_flow; cbn [seq map fold_right Nat.eqb pow].
  replace ((1000 * 0 / 2 + 1000) / ((1 + 0 / 2) * 1) + 0) with (IZR 10000000 / 10 ^ 4)
    by (simpl; field).
  rewrite py_round_IZR.
  pose proof (py_round_error 4 ((1000 * 0 / 2 + 1000) / ((1 + 0.0001 / 2) * 1) + 0)) as He.
  apply Rabs_le_split in He.
  intros Heq; rewrite Heq in He; simpl in He; lra.
Qed.

(** ** C4: the shocked yield is floored at one basis point *)

(** Claim C4: every scenario of the stress report is repriced at
    max(0.0001, ytm + shock_bps / 10000), which is at least 0.0001; for
    ytm = 0.0050 and shock_bps = -300 that yield is exactly 0.0001. *)
Theorem stress_shocked_yield_floor (face_value coupon_rate ytm maturity_years quantity : R)
    (sc : Scenario.StressScenario) :
  In sc (stress_test_bond face_value coupon_rate ytm maturity_years quantity) ->
  (let ys := Rmax 0.0001 (ytm + IZR (Scenario.shock_bps sc) / 10000) in
   Scenario.price sc = price (price_bond face_value coupon_rate ys maturity_years) /\
   Scenario.shocked_ytm sc = py_round 4 (ys * 100) /\
   0.0001 <= ys) /\
  shocked_yield 0.0050 (-300) = 0.0001.
Proof.
  intros Hin.
  split.
  - destruct (in_stress_report _ _ _ _ _ _ Hin) as (s & _ & ->).
    unfold stress_scenario; cbn [Scenario.price Scenario.shocked_ytm Scenario.shock_bps].
    rewrite shocked_yield_Rmax.
    repeat split; apply Rmax_l.
  - rewrite shocked_yield_Rmax; unfold Rmax.
    destruct (Rle_dec _ _); simpl in *; lra.
Qed.

Lemma stress_shocked_yield_floor_witness :
  In (stress_scenario 1000 0.0726 0.0050 10 1 (price_bond 1000 0.0726 0.0050 10) (-300))
     (stress_test_bond 1000 0.0726 0.0050 10 1) /\
  0.0001 <= Rmax 0.0001 (0.0050 + IZR (-300) / 10000).
Proof.
  assert (Hin : In (stress_scenario 1000 0.0726 0.0050 10 1
                      (price_bond 1000 0.0726 0.0050 10) (-300))
                   (stress_test_bond 1000 0.0726 0.0050 10 1))
    by (unfold stress_test_bond; cbn [map shocks]; left; reflexivity).
  split; [exact Hin|].
  exact (proj2 (proj2 (proj1 (stress_shocked_yield_floor _ _ _ _ _ _ Hin)))).
Defined.

(** ** C7: the canonical shock set, in order *)

Lemma stress_test_bond_shocks (f c y m q : R) :
  map Scenario.shock_bps (stress_test_bond f c y m q) =
  [-300; -200; -100; -50; 0; 50; 100; 200; 300]%Z.
Proof.
  unfold stress_test_bond; rewrite map_map; reflexivity.
Qed.

Lemma seq_outcomes_values {A B : Type} (g : B -> outcome A) (k : B -> A) (l : list B) (v : list A) :
  (forall x, g x = Returned (k x) \/ g x = ReturnedNonFinite (k x) \/ exists e, g x = Raised e) ->
  seq_outcomes (map g l) = Returned v \/ seq_outcomes (map g l) = ReturnedNonFinite v ->
  v = map k l.
Proof.
  intros Hg; revert v; induction l as [|x l IH]; intros v Hv; cbn in Hv.
  - destruct Hv as [Hv|Hv]; inversion Hv; reflexivity.
  - destruct (Hg x) as [Hx|[Hx|[e Hx]]]; rewrite Hx in Hv;
      [| |destruct Hv as [Hv|Hv]; discriminate];
      destruct (seq_outcomes (map g l)) as [w|w|e] eqn:Ew;
      destruct Hv as [Hv|Hv]; try discriminate; inversion Hv; subst; cbn;
      f_equal; apply IH; auto.
Qed.

Lemma seq_outcomes_returned {A B : Type} (g : B -> outcome A) (k : B -> A) (l : list B) :
  (forall x, In x l -> g x = Returned (k x)) ->
  seq_outcomes (map g l) = Returned (map k l).
Proof.
  induction l as [|x l IH]; intros Hg; cbn; [reflexivity|].
  rewrite (Hg x (or_introl eq_refl)), IH; [reflexivity|].
  intros z Hz; apply Hg; right; exact Hz.
Qed.

Lemma stress_scenario_checked_cases (f c y m q : R) (base : outcome PricingResult) (s : Z) :
  let sc := stress_scenario f c y m q (price_bond f c y m) s in
  stress_scenario_checked f c y m q base s = Returned sc \/
  stress_scenario_checked f c y m q base s = ReturnedNonFinite sc \/
  exists e, stress_scenario_checked f c y m q base s = Raised e.
Proof.
  intros sc; unfold stress_scenario_checked; fold sc.
  destruct (price_bond_checked f c (shocked_yield y s) m); eauto.
  destruct base; eauto.
  destruct (Req_EM_T _ 0); eauto.
  destruct (Z.eqb _ 0); eauto.
Qed.

(** The discount branch returns normally when [1 + ytm > 0] and the face
    value is non-zero. *)
Lemma price_bond_checked_discount_returned (f c y m : R) :
  n_periods m = 0%Z -> 0 < 1 + y -> f <> 0 ->
  price_bond_checked f c y m = Returned (price_bond f c y m).
Proof.
  intros Hn Hy Hf.
  rewrite price_bond_discount_branch by exact Hn.
  unfold price_bond_checked, discount_checked; rewrite Hn; cbn zeta; cbn [Z.eqb].
  destruct (Req_EM_T (1 + y) 0); [lra|].
  destruct (Rlt_dec (1 + y) 0); [lra|].
  destruct (Req_EM_T f 0); [contradiction|reflexivity].
Qed.

Lemma stress_test_bond_checked_returned (f c y m q : R) :
  price_bond_checked f c y m = Returned (price_bond f c y m) ->
  price (price_bond f c y m) <> 0 ->
  (forall s, In s shocks ->
     price_bond_checked f c (shocked_yield y s) m =
     Returned (price_bond f c (shocked_yield y s) m)) ->
  stress_test_bond_checked f c y m q = Returned (stress_test_bond f c y m q).
Proof.
  intros Hb Hp Hs.
  unfold stress_test_bond_checked, stress_test_bond; rewrite Hb.
  apply seq_outcomes_returned; intros s Hin.
  unfold stress_scenario_checked; rewrite (Hs s Hin).
  destruct (Req_EM_T _ 0); [contradiction|reflexivity].
Qed.

(** Claim C7, as amended: whenever [stress_test_bond] returns (it raises no
    exception), the returned list has nine entries whose shock_bps are -300,
    -200, -100, -50, 0, 50, 100, 200, 300, in that order; this holds also
    when some numbers of the entries are nan or inf. *)
Theorem stress_test_bond_checked_shock_order
    (face_value coupon_rate ytm maturity_years quantity : R)
    (l : list Scenario.StressScenario) :
  stress_test_bond_checked face_value coupon_rate ytm maturity_years quantity = Returned l \/
  stress_test_bond_checked face_value coupon_rate ytm maturity_years quantity =
    ReturnedNonFinite l ->
  map Scenario.shock_bps l = [-300; -200; -100; -50; 0; 50; 100; 200; 300]%Z.
Proof.
  intros Hl.
  assert (E : l = stress_test_bond face_value coupon_rate ytm maturity_years quantity).
  { unfold stress_test_bond_checked in Hl.
    destruct (price_bond_checked face_value coupon_rate ytm maturity_years) as [b|b|e] eqn:Eb;
      [| |destruct Hl as [Hl|Hl]; discriminate];
      (eapply seq_outcomes_values; [|exact Hl]);
      intros s; apply stress_scenario_checked_cases. }
  rewrite E; apply stress_test_bond_shocks.
Qed.

Lemma stress_test_bond_checked_shock_order_witness :
  (stress_test_bond_checked 1000 0 0 0.25 1 = Returned (stress_test_bond 1000 0 0 0.25 1) \/
   stress_test_bond_checked 1000 0 0 0.25 1 = ReturnedNonFinite (stress_test_bond 1000 0 0 0.25 1)) /\
  map Scenario.shock_bps (stress_test_bond 1000 0 0 0.25 1) =
  [-300; -200; -100; -50; 0; 50; 100; 200; 300]%Z.
Proof.
  assert (Hn : n_periods 0.25 = 0%Z) by (apply n_periods_short; lra).
  assert (H : stress_test_bond_checked 1000 0 0 0.25 1 =
              Returned (stress_test_bond 1000 0 0 0.25 1)).
  { apply stress_test_bond_checked_returned.
    - apply price_bond_checked_discount_returned; [exact Hn|lra|lra].
    - rewrite price_bond_discount_branch by exact Hn.
      unfold discount_result, price_discount; cbn [price].
      replace (1 + 0) with 1 by ring.
      unfold Rpower; rewrite ln_1, Rmult_0_r, exp_0.
      replace (1000 / 1) with (IZR 10000000 / 10 ^ 4) by (simpl; field).
      rewrite py_round_IZR; simpl; lra.
    - intros s _; apply price_bond_checked_discount_returned; [exact Hn| |lra].
      rewrite shocked_yield_Rmax; pose proof (Rmax_l 0.0001 (0 + IZR s / 10000)); lra. }
  split; [left; exact H|].
  exact (stress_test_bond_checked_shock_order _ _ _ _ _ _ (or_introl H)).
Defined.

(** Claim C7 fails for every input: with face_value = 0 the base call of
    line 87 raises ZeroDivisionError at line 38, and no list is returned. *)
Lemma stress_test_bond_checked_counterexample :
  stress_test_bond_checked 0 0 0.0685 0.25 1 = Raised ZeroDivisionError.
Proof.
  assert (Hn : n_periods 0.25 = 0%Z) by (apply n_periods_short; lra).
  unfold stress_test_bond_checked, price_bond_checked, discount_checked.
  rewrite Hn; cbn zeta; cbn [Z.eqb].
  destruct (Req_EM_T (1 + 0.0685) 0); [lra|].
  destruct (Rlt_dec (1 + 0.0685) 0); [lra|].
  destruct (Req_EM_T 0 0); [reflexivity|contradiction].
Qed.

(** ** C9: the discount branch does not read coupon_rate *)

(** The fields of a result other than coupon_pct. *)
Definition fields_but_coupon_pct (r : PricingResult) : list R :=
  [price r; macaulay_duration r; modified_duration r; convexity r; dv01 r;
   current_yield r; price_to_face r; ytm_pct r].

(** Claim C9: for 0 < maturity_years < 0.5, two calls of [price_bond] that
    differ only in coupon_rate agree on every field but coupon_pct. *)
Theorem price_bond_discount_coupon_independent
    (face_value coupon_rate1 coupon_rate2 ytm maturity_years : R) :
  0 < maturity_years < 0.5 -> 0 <= coupon_rate1 -> 0 <= coupon_rate2 ->
  fields_but_coupon_pct (price_bond face_value coupon_rate1 ytm maturity_years) =
  fields_but_coupon_pct (price_bond face_value coupon_rate2 ytm maturity_years).
Proof.
  intros Hm _ _.
  rewrite !price_bond_discount_branch by (apply n_periods_short; lra).
  reflexivity.
Qed.

Lemma price_bond_discount_coupon_independent_witness :
  0 < 0.25 < 0.5 /\
  fields_but_coupon_pct (price_bond 1000 0 0.0685 0.25) =
  fields_but_coupon_pct (price_bond 1000 0.08 0.0685 0.25).
Proof.
  split; [lra|].
  apply price_bond_discount_coupon_independent; lra.
Defined.

(** ** C10: P&L figures are computed from the rounded prices *)

(** Claim C10: in every scenario, with [b] and [p] the 4-decimal rounded base
    and shocked prices, pnl_per_bond = round(p - b, 4), total_pnl =
    round((p - b) * quantity, 2) and pnl_pct = round((p - b) / b * 100, 4). *)
Theorem stress_pnl_from_rounded_prices
    (face_value coupon_rate ytm maturity_years quantity : R) (sc : Scenario.StressScenario) :
  In sc (stress_test_bond face_value coupon_rate ytm maturity_years quantity) ->
  exists xb xs,
    price (price_bond face_value coupon_rate ytm maturity_years) = py_round 4 xb /\
    Scenario.price sc = py_round 4 xs /\
    Scenario.pnl_per_bond sc = py_round 4 (py_round 4 xs - py_round 4 xb) /\
    Scenario.total_pnl sc = py_round 2 ((py_round 4 xs - py_round 4 xb) * quantity) /\
    Scenario.pnl_pct sc =
      py_round 4 ((py_round 4 xs - py_round 4 xb) / py_round 4 xb * 100).
Proof.
  intros Hin.
  destruct (in_stress_report _ _ _ _ _ _ Hin) as (s & _ & ->).
  destruct (price_bond_price_rounded face_value coupon_rate ytm maturity_years) as [xb Hb].
  destruct (price_bond_price_rounded face_value coupon_rate (shocked_yield ytm s)
              maturity_years) as [xs Hs].
  exists xb, xs.
  unfold stress_scenario; cbn [Scenario.price Scenario.pnl_per_bond Scenario.total_pnl
                               Scenario.pnl_pct].
  rewrite Hb, Hs; repeat split.
Qed.

Lemma stress_pnl_from_rounded_prices_witness :
  In (stress_scenario 1000 0.0726 0.0712 10 100 (price_bond 1000 0.0726 0.0712 10) 50)
     (stress_test_bond 1000 0.0726 0.0712 10 100) /\
  exists xb xs,
    price (price_bond 1000 0.0726 0.0712 10) = py_round 4 xb /\
    Scenario.price (stress_scenario 1000 0.0726 0.0712 10 100
                      (price_bond 1000 0.0726 0.0712 10) 50) = py_round 4 xs.
Proof.
  assert (Hin : In (stress_scenario 1000 0.0726 0.0712 10 100
                      (price_bond 1000 0.0726 0.0712 10) 50)
                   (stress_test_bond 1000 0.0726 0.0712 10 100))
    by (unfold stress_test_bond; cbn [map shocks]; right; right; right; right; right;
        left; reflexivity).
  split; [exact Hin|].
  destruct (stress_pnl_from_rounded_prices _ _ _ _ _ _ Hin) as (xb & xs & H1 & H2 & _).
  exists xb, xs; split; assumption.
Defined.

(** ** Sums of discounted cash flows *)

Lemma sum_map_le (g h : nat -> R) (l : list nat) :
  (forall i, In i l -> g i <= h i) ->
  fold_right Rplus 0 (map g l) <= fold_right Rplus 0 (map h l).
Proof.
  induction l as [|a l IH]; intros Hle; cbn; [lra|].
  apply Rplus_le_compat; [apply Hle; left; reflexivity|].
  apply IH; intros i Hi; apply Hle; right; exact Hi.
Qed.

Lemma sum_map_lt (g h : nat -> R) (l : list nat) (j : nat) :
  In j l -> g j < h j -> (forall i, In i l -> g i <= h i) ->
  fold_right Rplus 0 (map g l) < fold_right Rplus 0 (map h l).
Proof.
  induction l as [|a l IH]; intros Hj Hlt Hle; [destruct Hj|].
  cbn; destruct Hj as [->|Hj].
  - apply Rplus_lt_le_compat; [exact Hlt|].
    apply sum_map_le; intros i Hi; apply Hle; right; exact Hi.
  - apply Rplus_le_lt_compat; [apply Hle; left; reflexivity|].
    apply IH; auto; intros i Hi; apply Hle; right; exact Hi.
Qed.

Lemma sum_map_zero (l : list nat) : fold_right Rplus 0 (map (fun _ => 0) l) = 0.
Proof. induction l as [|a l IH]; cbn; [reflexivity | rewrite IH; ring]. Qed.

Lemma pow_lt_compat_S (a b : R) (n : nat) : 0 < a < b -> a ^ S n < b ^ S n.
Proof.
  intros Hab; induction n as [|n IH]; [simpl; lra|].
  change (a ^ S (S n)) with (a * a ^ S n); change (b ^ S (S n)) with (b * b ^ S n).
  assert (0 < a ^ S n) by (apply pow_lt; lra).
  nra.
Qed.

Lemma discount_le (cf d1 d2 : R) (i : nat) :
  0 <= cf -> 0 < d1 <= d2 -> cf / d2 ^ i <= cf / d1 ^ i.
Proof.
  intros Hcf Hd.
  assert (0 < d1 ^ i) by (apply pow_lt; lra).
  apply Rmult_le_compat_l; [exact Hcf|].
  apply Rinv_le_contravar; [assumption|apply pow_incr; lra].
Qed.

Lemma discount_lt (cf d1 d2 : R) (i : nat) :
  0 < cf -> 0 < d1 < d2 -> (1 <= i)%nat -> cf / d2 ^ i < cf / d1 ^ i.
Proof.
  intros Hcf Hd Hi.
  destruct i as [|i]; [lia|].
  assert (0 < d1 ^ S i) by (apply pow_lt; lra).
  apply Rmult_lt_compat_l; [exact Hcf|].
  apply Rinv_lt_contravar; [|apply pow_lt_compat_S; lra].
  apply Rmult_lt_0_compat; [assumption|apply pow_lt; lra].
Qed.

(** The discounted cash-flow price strictly decreases in the yield. *)
Lemma spec_dcf_price_strict_anti (f c y1 y2 : R) (N : nat) :
  0 < f -> 0 <= c -> -1 < y1 < y2 -> (1 <= N)%nat ->
  spec_dcf_price f c y2 N < spec_dcf_price f c y1 N.
Proof.
  intros Hf Hc Hy HN.
  assert (Hfc : 0 <= f * c / 2) by (apply Rmult_le_pos; [apply Rmult_le_pos|]; lra).
  unfold spec_dcf_price.
  apply (sum_map_lt _ _ _ N).
  - apply in_seq; lia.
  - apply discount_lt; [unfold spec_cash_flow; rewrite Nat.eqb_refl; lra | lra | lia].
  - intros i _; apply discount_le; [unfold spec_cash_flow; destruct (Nat.eqb i N); lra | lra].
Qed.

(** With a negative face value the discounted cash-flow price is negative. *)
Lemma spec_dcf_price_neg_face (f c y : R) (N : nat) :
  f < 0 -> 0 <= c -> -1 < y -> spec_dcf_price f c y N <= 0.
Proof.
  intros Hf Hc Hy.
  assert (Hfc : f * c / 2 <= 0) by nra.
  unfold spec_dcf_price.
  apply Rle_trans with (fold_right Rplus 0 (map (fun _ => 0) (seq 1 N)));
    [|rewrite sum_map_zero; lra].
  apply sum_map_le; intros i _.
  assert (0 < (1 + y / 2) ^ i) by (apply pow_lt; lra).
  assert (0 < / (1 + y / 2) ^ i) by (apply Rinv_0_lt_compat; assumption).
  unfold spec_cash_flow, Rdiv.
  destruct (Nat.eqb i N); nra.
Qed.

Lemma n_periods_ge1 (m : R) : 0.5 <= m -> (1 <= n_periods m)%Z.
Proof.
  intros Hm; rewrite n_periods_floor by lra.
  rewrite <- (Int_part_IZR 1); apply Int_part_le_mono; simpl; lra.
Qed.

(** ** C5: no validation of the inputs *)

(** With a negative face value the discounted cash-flow price is negative. *)
Lemma spec_dcf_price_neg_face_strict (f c y : R) (N : nat) :
  f < 0 -> 0 <= c -> -1 < y -> (1 <= N)%nat -> spec_dcf_price f c y N < 0.
Proof.
  intros Hf Hc Hy HN.
  assert (Hfc : f * c / 2 <= 0) by nra.
  unfold spec_dcf_price.
  apply Rlt_le_trans with (fold_right Rplus 0 (map (fun _ => 0) (seq 1 N)));
    [|rewrite sum_map_zero; lra].
  assert (Hd : forall i, 0 < / (1 + y / 2) ^ i)
    by (intros i; apply Rinv_0_lt_compat, pow_lt; lra).
  apply (sum_map_lt _ _ _ N).
  - apply in_seq; lia.
  - specialize (Hd N); unfold spec_cash_flow, Rdiv; rewrite Nat.eqb_refl; nra.
  - intros i _; specialize (Hd i); unfold spec_cash_flow, Rdiv.
    destruct (Nat.eqb i N); nra.
Qed.

(** In the periodic branch, with non-zero denominators, the code returns the
    dictionary of the model. *)
Lemma price_bond_checked_periodic_returned (f c y m : R) :
  (1 <= n_periods m)%Z -> 1 + semi_ytm y <> 0 -> price_periodic f c y m <> 0 -> f <> 0 ->
  price_bond_checked f c y m = Returned (price_bond f c y m).
Proof.
  intros Hn Hd Hp Hf.
  rewrite price_bond_periodic_branch by lia.
  unfold price_bond_checked, periodic_checked.
  destruct (Z.eqb_spec (n_periods m) 0); [lia|].
  destruct (Z.ltb_spec (n_periods m) 0); [lia|].
  destruct (Req_EM_T (1 + semi_ytm y) 0); [contradiction|].
  destruct (Req_EM_T (price_periodic f c y m) 0); [contradiction|].
  destruct (Req_EM_T f 0); [contradiction|reflexivity].
Qed.

Lemma price_bond_checked_neg_face_returned (f c y m : R) :
  f < 0 -> 0 <= c -> -1 < y -> 0.5 <= m ->
  price_bond_checked f c y m = Returned (price_bond f c y m).
Proof.
  intros Hf Hc Hy Hm.
  pose proof (n_periods_ge1 _ Hm) as H1.
  apply price_bond_checked_periodic_returned; [lia | unfold semi_ytm; lra | | lra].
  rewrite (price_periodic_dcf _ _ _ _ (Z.to_nat (n_periods m))) by lia.
  apply Rlt_not_eq, spec_dcf_price_neg_face_strict; auto; lia.
Qed.

Lemma price_bond_neg_face_price_nonpos (f c y m : R) :
  f < 0 -> 0 <= c -> -1 < y -> 0.5 <= m -> price (price_bond f c y m) <= 0.
Proof.
  intros Hf Hc Hy Hm.
  pose proof (n_periods_ge1 _ Hm) as H1.
  rewrite (price_bond_price_periodic _ _ _ _ (Z.to_nat (n_periods m))) by lia.
  rewrite <- (py_round_0 4).
  apply py_round_mono, spec_dcf_price_neg_face; assumption.
Qed.

Lemma price_bond_neg_face_price_value : price (price_bond (-1000) 0 0 1) = -1000.
Proof.
  assert (Hn : n_periods 1 = Z.of_nat 2).
  { rewrite n_periods_floor by lra.
    replace (1 * 2) with (IZR 2) by lra; apply Int_part_IZR. }
  rewrite (price_bond_price_periodic _ _ _ _ 2 Hn) by lia.
  unfold spec_dcf_price, spec_cash_flow; cbn [seq map fold_right Nat.eqb pow].
  replace ((-1000 * 0 / 2 + 0) / ((1 + 0 / 2) * 1) +
           ((-1000 * 0 / 2 + -1000) / ((1 + 0 / 2) * ((1 + 0 / 2) * 1)) + 0))
    with (IZR (-10000000) / 10 ^ 4) by (simpl; field).
  rewrite py_round_IZR; simpl; field.
Qed.

(** Claim C5, as amended: [price_bond] validates nothing and raises no
    validation error.  With face_value < 0, coupon_rate >= 0, ytm > -1 and
    maturity_years >= 0.5 the code returns normally, every field of the
    result is finite (no exception, no nan or inf), and the returned price
    is not positive. *)
Theorem price_bond_checked_negative_face (face_value coupon_rate ytm maturity_years : R) :
  face_value < 0 -> 0 <= coupon_rate -> -1 < ytm -> 0.5 <= maturity_years ->
  price_bond_checked face_value coupon_rate ytm maturity_years =
    Returned (price_bond face_value coupon_rate ytm maturity_years) /\
  price (price_bond face_value coupon_rate ytm maturity_years) <= 0.
Proof.
  intros Hf Hc Hy Hm; split.
  - apply price_bond_checked_neg_face_returned; assumption.
  - apply price_bond_neg_face_price_nonpos; assumption.
Qed.

Lemma price_bond_checked_negative_face_witness :
  -1000 < 0 /\ 0 <= 0.05 /\ -1 < 0.07 /\ 0.5 <= 1 /\
  price_bond_checked (-1000) 0.05 0.07 1 = Returned (price_bond (-1000) 0.05 0.07 1) /\
  price (price_bond (-1000) 0.05 0.07 1) <= 0.
Proof.
  do 4 (split; [lra|]).
  apply price_bond_checked_negative_face; lra.
Defined.

(** Claim C5 fails: with face_value = -1000 the code raises nothing and
    returns a result (all fields finite) whose price is -1000. *)
Lemma price_bond_checked_negative_face_counterexample :
  price_bond_checked (-1000) 0 0 1 = Returned (price_bond (-1000) 0 0 1) /\
  price (price_bond (-1000) 0 0 1) = -1000.
Proof.
  split; [apply price_bond_checked_neg_face_returned; lra|].
  apply price_bond_neg_face_price_value.
Qed.

(** ** C6: monotonicity of the stressed price *)

(** Claim C6, as amended: for a coupon bond in the periodic branch
    (face_value > 0, coupon_rate >= 0, maturity_years >= 0.5), between two
    shocks whose shocked yields satisfy y1 < y2 the unrounded price at y1 is
    strictly greater than at y2, and the reported (4-decimal) scenario price
    at y1 is greater than or equal to the one at y2. *)
Theorem stress_price_monotone (face_value coupon_rate ytm maturity_years quantity : R)
    (s1 s2 : Z) :
  0 < face_value -> 0 <= coupon_rate -> 0.5 <= maturity_years ->
  In s1 shocks -> In s2 shocks ->
  shocked_yield ytm s1 < shocked_yield ytm s2 ->
  let base := price_bond face_value coupon_rate ytm maturity_years in
  price_periodic face_value coupon_rate (shocked_yield ytm s2) maturity_years <
  price_periodic face_value coupon_rate (shocked_yield ytm s1) maturity_years /\
  Scenario.price (stress_scenario face_value coupon_rate ytm maturity_years quantity base s2) <=
  Scenario.price (stress_scenario face_value coupon_rate ytm maturity_years quantity base s1).
Proof.
  intros Hf Hc Hm _ _ Hlt base.
  pose proof (n_periods_ge1 _ Hm) as H1.
  set (N := Z.to_nat (n_periods maturity_years)).
  assert (HN : n_periods maturity_years = Z.of_nat N) by (unfold N; lia).
  assert (Hy1 : 0.0001 <= shocked_yield ytm s1)
    by (rewrite shocked_yield_Rmax; apply Rmax_l).
  assert (Hstrict : spec_dcf_price face_value coupon_rate (shocked_yield ytm s2) N <
                    spec_dcf_price face_value coupon_rate (shocked_yield ytm s1) N)
    by (apply spec_dcf_price_strict_anti; [assumption | assumption | lra | lia]).
  split.
  - rewrite !(price_periodic_dcf _ _ _ _ N) by (assumption || lia); exact Hstrict.
  - unfold stress_scenario; cbn [Scenario.price].
    rewrite !(price_bond_price_periodic _ _ _ _ N) by (assumption || lia).
    apply py_round_mono; lra.
Qed.

Lemma stress_price_monotone_witness :
  shocked_yield 0.0712 (-50) < shocked_yield 0.0712 50 /\
  Scenario.price (stress_scenario 1000 0.0726 0.0712 10 1 (price_bond 1000 0.0726 0.0712 10) 50)
  <= Scenario.price (stress_scenario 1000 0.0726 0.0712 10 1
                       (price_bond 1000 0.0726 0.0712 10) (-50)).
Proof.
  assert (Hlt : shocked_yield 0.0712 (-50) < shocked_yield 0.0712 50).
  { rewrite !shocked_yield_Rmax, !Rmax_right; simpl; lra. }
  split; [exact Hlt|].
  apply (stress_price_monotone 1000 0.0726 0.0712 10 1 (-50) 50); try lra;
    cbn; tauto.
Defined.

(** Claim C6 fails for a bond of face value 0.000001: the -300 and +300
    scenarios have shocked yields 0.02 < 0.08, yet both report the price 0
    after rounding to 4 decimals. *)
Lemma stress_price_monotone_counterexample :
  let base := price_bond 0.000001 0.05 0.05 1 in
  let sc1 := stress_scenario 0.000001 0.05 0.05 1 1 base (-300) in
  let sc2 := stress_scenario 0.000001 0.05 0.05 1 1 base 300 in
  In sc1 (stress_test_bond 0.000001 0.05 0.05 1 1) /\
  In sc2 (stress_test_bond 0.000001 0.05 0.05 1 1) /\
  shocked_yield 0.05 (-300) < shocked_yield 0.05 300 /\
  Scenario.price sc1 = Scenario.price sc2.
Proof.
  intros base sc1 sc2.
  assert (Hn : n_periods 1 = Z.of_nat 2).
  { rewrite n_periods_floor by lra.
    replace (1 * 2) with (IZR 2) by lra; apply Int_part_IZR. }
  assert (Hy1 : shocked_yield 0.05 (-300) = 0.05 + IZR (-300) / 10000)
    by (rewrite shocked_yield_Rmax; apply Rmax_right; simpl; lra).
  assert (Hy2 : shocked_yield 0.05 300 = 0.05 + IZR 300 / 10000)
    by (rewrite shocked_yield_Rmax; apply Rmax_right; simpl; lra).
  split; [unfold stress_test_bond; cbn [map shocks]; left; reflexivity|].
  split; [unfold stress_test_bond; cbn [map shocks]; do 8 right; left; reflexivity|].
  split; [rewrite Hy1, Hy2; simpl; lra|].
  unfold sc1, sc2, stress_scenario; cbn [Scenario.price].
  rewrite Hy1, Hy2, !(price_bond_price_periodic _ _ _ _ 2 Hn) by lia.
  unfold spec_dcf_price, spec_cash_flow; cbn [seq map fold_right Nat.eqb pow].
  rewrite !py_round_small; [reflexivity | simpl; lra | simpl; lra].
Qed.

(** ** C8: ratio denominators *)

(** Claim C8 (code defect): the pnl_pct denominator, the rounded base price,
    is not guarded.  For face_value = 0.000001, coupon_rate = 0, ytm = 0.0685
    and maturity_years = 0.25 the base price is 0, and so is every
    scenario's price, so [pnl_per_bond / base['price']] divides 0 by 0
    (a ZeroDivisionError on these Python floats). *)
Theorem stress_pnl_pct_zero_denominator :
  price (price_bond 0.000001 0 0.0685 0.25) = 0 /\
  (forall s, In s shocks ->
     price (price_bond 0.000001 0 (shocked_yield 0.0685 s) 0.25) -
     price (price_bond 0.000001 0 0.0685 0.25) = 0).
Proof.
  assert (Hsmall : forall y, 0 <= y ->
            price (price_bond 0.000001 0 y 0.25) = 0).
  { intros y Hy.
    rewrite price_bond_discount_branch by (apply n_periods_short; lra).
    unfold discount_result, price_discount; cbn [price].
    assert (HP : 1 <= Rpower (1 + y) 0.25).
    { apply Rle_trans with (Rpower (1 + y) 0); [rewrite Rpower_O; lra|].
      apply Rle_Rpower; lra. }
    assert (Hinv : 0 < / Rpower (1 + y) 0.25 <= 1).
    { split; [apply Rinv_0_lt_compat; lra|].
      apply Rle_trans with (/ 1); [apply Rinv_le_contravar; lra | rewrite Rinv_1; lra]. }
    apply py_round_small; unfold Rdiv; simpl; nra. }
  split; [apply Hsmall; lra|].
  intros s _.
  rewrite !Hsmall; [ring | lra |].
  rewrite shocked_yield_Rmax; pose proof (Rmax_l 0.0001 (0.0685 + IZR s / 10000)); lra.
Qed.

(** * Further properties of [price_bond] and [stress_test_bond] *)

(** ** The periodic branch as sums over the periods *)

(** Present value of period [i] of [N]. *)
Definition spec_pv (f c y : R) (N i : nat) : R :=
  spec_cash_flow f c N i / (1 + y / 2) ^ i.

(** [sum_{i=1..N} g i]. *)
Definition sum_periods (N : nat) (g : nat -> R) : R :=
  fold_right Rplus 0 (map g (seq 1 N)).

Lemma np_zip_map (h : R -> R -> R) (g k : nat -> R) (l : list nat) :
  np_zip h (map g l) (map k l) = map (fun i => h (g i) (k i)) l.
Proof.
  unfold np_zip; induction l as [|a l IH]; cbn; [reflexivity|].
  f_equal; exact IH.
Qed.

Lemma pv_cash_flows_seq (f c y m : R) (N : nat) :
  n_periods m = Z.of_nat N -> (1 <= N)%nat ->
  pv_cash_flows f c y m = map (spec_pv f c y N) (seq 1 N).
Proof.
  intros HN H1.
  destruct N as [|k]; [lia|].
  unfold pv_cash_flows, cash_flows, discount_factors, periods, np_arange1, np_full.
  rewrite HN, Nat2Z.id, pv_schedule.
  replace (1 + k)%nat with (S k) by lia.
  reflexivity.
Qed.

Lemma periods_R_seq (m : R) (N : nat) :
  n_periods m = Z.of_nat N -> periods_R m = map INR (seq 1 N).
Proof.
  intros HN; unfold periods_R, periods, np_arange1; rewrite HN, Nat2Z.id.
  reflexivity.
Qed.

(** The unrounded quantities of [periodic_result]. *)
Lemma periodic_sums (f c y m : R) (N : nat) :
  n_periods m = Z.of_nat N -> (1 <= N)%nat ->
  price_periodic f c y m = sum_periods N (spec_pv f c y N) /\
  np_sum (np_zip Rmult (pv_cash_flows f c y m) (periods_R m)) =
    sum_periods N (fun i => spec_pv f c y N i * INR i) /\
  np_sum (np_zip Rmult (np_zip Rmult (pv_cash_flows f c y m) (periods_R m))
                       (map (fun p => p + 1) (periods_R m))) =
    sum_periods N (fun i => spec_pv f c y N i * INR i * (INR i + 1)).
Proof.
  intros HN H1.
  unfold price_periodic.
  rewrite (pv_cash_flows_seq _ _ _ _ N HN H1), (periods_R_seq _ N HN), map_map,
    !np_zip_map.
  repeat split.
Qed.

Lemma sum_periods_le (N : nat) (g h : nat -> R) :
  (forall i, (1 <= i <= N)%nat -> g i <= h i) -> sum_periods N g <= sum_periods N h.
Proof.
  intros H; apply sum_map_le; intros i Hi; apply in_seq in Hi; apply H; lia.
Qed.

Lemma sum_periods_lt (N : nat) (g h : nat -> R) (j : nat) :
  (1 <= j <= N)%nat -> g j < h j ->
  (forall i, (1 <= i <= N)%nat -> g i <= h i) -> sum_periods N g < sum_periods N h.
Proof.
  intros Hj Hlt H; apply (sum_map_lt _ _ _ j); [apply in_seq; lia | exact Hlt |].
  intros i Hi; apply in_seq in Hi; apply H; lia.
Qed.

Lemma sum_periods_scale (N : nat) (a : R) (g : nat -> R) :
  sum_periods N (fun i => a * g i) = a * sum_periods N g.
Proof.
  unfold sum_periods; generalize (seq 1 N) as l.
  induction l as [|x l IH]; cbn; [ring | rewrite IH; ring].
Qed.

Lemma sum_periods_ext (N : nat) (g h : nat -> R) :
  (forall i, (1 <= i <= N)%nat -> g i = h i) -> sum_periods N g = sum_periods N h.
Proof.
  intros H; apply Rle_antisym; apply sum_periods_le; intros i Hi; rewrite (H i Hi); lra.
Qed.

Lemma sum_periods_S (N : nat) (g : nat -> R) :
  sum_periods (S N) g = sum_periods N g + g (S N).
Proof.
  unfold sum_periods; rewrite seq_S, map_app, fold_right_app; cbn.
  replace (1 + N)%nat with (S N) by lia.
  generalize (map g (seq 1 N)) as l.
  induction l as [|x l IH]; cbn; [ring | rewrite IH; ring].
Qed.

Lemma spec_pv_nonneg (f c y : R) (N i : nat) :
  0 < f -> 0 <= c -> -1 < y -> 0 <= spec_pv f c y N i.
Proof.
  intros Hf Hc Hy.
  assert (0 < (1 + y / 2) ^ i) by (apply pow_lt; lra).
  assert (0 <= f * c / 2) by (apply Rmult_le_pos; [apply Rmult_le_pos|]; lra).
  unfold spec_pv, spec_cash_flow, Rdiv.
  apply Rmult_le_pos; [destruct (Nat.eqb i N); lra|].
  apply Rlt_le, Rinv_0_lt_compat; assumption.
Qed.

Lemma spec_pv_last_pos (f c y : R) (N : nat) :
  0 < f -> 0 <= c -> -1 < y -> 0 < spec_pv f c y N N.
Proof.
  intros Hf Hc Hy.
  assert (0 < (1 + y / 2) ^ N) by (apply pow_lt; lra).
  assert (0 <= f * c / 2) by (apply Rmult_le_pos; [apply Rmult_le_pos|]; lra).
  unfold spec_pv, spec_cash_flow; rewrite Nat.eqb_refl.
  apply Rdiv_lt_0_compat; lra.
Qed.

Lemma sum_periods_pv_pos (f c y : R) (N : nat) :
  0 < f -> 0 <= c -> -1 < y -> (1 <= N)%nat -> 0 < sum_periods N (spec_pv f c y N).
Proof.
  intros Hf Hc Hy HN.
  apply Rle_lt_trans with (sum_periods N (fun _ => 0)).
  - unfold sum_periods; rewrite sum_map_zero; lra.
  - apply (sum_periods_lt _ _ _ N); [lia | apply spec_pv_last_pos; auto |].
    intros i _; apply spec_pv_nonneg; auto.
Qed.

Lemma py_round_nonneg (nd : nat) (x : R) : 0 <= x -> 0 <= py_round nd x.
Proof. intros H; rewrite <- (py_round_0 nd); apply py_round_mono, H. Qed.

Lemma n_periods_periodic (m : R) :
  0.5 <= m -> exists N, n_periods m = Z.of_nat N /\ (1 <= N)%nat.
Proof.
  intros Hm; pose proof (n_periods_ge1 _ Hm).
  exists (Z.to_nat (n_periods m)); split; lia.
Qed.

Lemma Rdiv_nonneg (a b : R) : 0 <= a -> 0 < b -> 0 <= a / b.
Proof.
  intros Ha Hb; unfold Rdiv; apply Rmult_le_pos; [exact Ha|].
  apply Rlt_le, Rinv_0_lt_compat, Hb.
Qed.

Lemma Rpower_pos (x e : R) : 0 < Rpower x e.
Proof. unfold Rpower; apply exp_pos. Qed.

Lemma Rpower_1_base (e : R) : Rpower 1 e = 1.
Proof. unfold Rpower; rewrite ln_1, Rmult_0_r; apply exp_0. Qed.

(** The price as coupon annuity plus discounted principal. *)
Lemma sum_periods_pv_split (f c y : R) (N : nat) :
  (1 <= N)%nat -> -1 < y ->
  sum_periods N (spec_pv f c y N) =
  f * c / 2 * sum_periods N (fun i => / (1 + y / 2) ^ i) + f / (1 + y / 2) ^ N.
Proof.
  intros HN Hy.
  destruct N as [|k]; [lia|].
  assert (Hd : 0 < (1 + y / 2) ^ S k) by (apply pow_lt; lra).
  rewrite !sum_periods_S.
  rewrite (sum_periods_ext k (spec_pv f c y (S k))
             (fun i => f * c / 2 * / (1 + y / 2) ^ i)).
  - rewrite sum_periods_scale.
    unfold spec_pv, spec_cash_flow; rewrite Nat.eqb_refl.
    field; lra.
  - intros i Hi; unfold spec_pv, spec_cash_flow.
    replace (Nat.eqb i (S k)) with false by (symmetry; apply Nat.eqb_neq; lia).
    unfold Rdiv; ring.
Qed.

(** [r * sum_{i=1..N} (1+r)^-i + (1+r)^-N = 1]. *)
Lemma annuity_identity (r : R) (N : nat) :
  -1 < r -> r * sum_periods N (fun i => / (1 + r) ^ i) + / (1 + r) ^ N = 1.
Proof.
  intros Hr; induction N as [|N IH].
  - unfold sum_periods; cbn; field.
  - rewrite sum_periods_S.
    assert (0 < (1 + r) ^ N) by (apply pow_lt; lra).
    rewrite <- IH at 3.
    change ((1 + r) ^ S N) with ((1 + r) * (1 + r) ^ N).
    field; lra.
Qed.

Lemma sum_periods_const (N : nat) (a : R) : sum_periods N (fun _ => a) = INR N * a.
Proof.
  induction N as [|N IH]; [unfold sum_periods; cbn; ring|].
  rewrite sum_periods_S, IH, S_INR; ring.
Qed.

(** ** X1: the price never rises with the yield *)

(** [price_bond]'s price is non-increasing in ytm, in both branches. *)
Theorem price_bond_price_antitone_ytm (face_value coupon_rate ytm1 ytm2 maturity_years : R) :
  0 < face_value -> 0 <= coupon_rate -> -1 < ytm1 <= ytm2 -> 0 < maturity_years ->
  price (price_bond face_value coupon_rate ytm2 maturity_years) <=
  price (price_bond face_value coupon_rate ytm1 maturity_years).
Proof.
  intros Hf Hc Hy Hm.
  destruct (Rlt_dec maturity_years 0.5) as [Hshort|Hlong].
  - rewrite !price_bond_discount_branch by (apply n_periods_short; lra).
    unfold discount_result, price_discount; cbn [price].
    apply py_round_mono; unfold Rdiv.
    apply Rmult_le_compat_l; [lra|].
    apply Rinv_le_contravar; [apply Rpower_pos|].
    apply Rle_Rpower_l; lra.
  - destruct (n_periods_periodic maturity_years) as (N & HN & H1); [lra|].
    rewrite !(price_bond_price_periodic _ _ _ _ N HN H1).
    apply py_round_mono.
    destruct (Req_dec ytm1 ytm2) as [<-|Hne]; [lra|].
    apply Rlt_le, spec_dcf_price_strict_anti; auto; lra.
Qed.

Lemma price_bond_price_antitone_ytm_witness :
  price (price_bond 1000 0.0726 0.0812 10) <= price (price_bond 1000 0.0726 0.0712 10) /\
  price (price_bond 1000 0 0.0785 0.25) <= price (price_bond 1000 0 0.0685 0.25).
Proof.
  split; apply price_bond_price_antitone_ytm; lra.
Defined.

(** ** X2: the sign of the stressed P&L *)

(** With ytm >= 0.0001 (the floor inactive at the base yield), a shock
    that does not raise the yield never shows a loss per bond, and a shock
    that does not lower it never shows a gain. *)
Theorem stress_pnl_sign (face_value coupon_rate ytm maturity_years quantity : R) (s : Z) :
  0 < face_value -> 0 <= coupon_rate -> 0.0001 <= ytm -> 0 < maturity_years ->
  let base := price_bond face_value coupon_rate ytm maturity_years in
  let sc := stress_scenario face_value coupon_rate ytm maturity_years quantity base s in
  ((s <= 0)%Z -> 0 <= Scenario.pnl_per_bond sc) /\
  ((0 <= s)%Z -> Scenario.pnl_per_bond sc <= 0).
Proof.
  intros Hf Hc Hy Hm base sc.
  assert (Hfl : 0.0001 <= shocked_yield ytm s)
    by (rewrite shocked_yield_Rmax; apply Rmax_l).
  unfold sc, stress_scenario; cbn [Scenario.pnl_per_bond].
  split; intros Hs.
  - apply py_round_nonneg.
    assert (Hle : shocked_yield ytm s <= ytm).
    { rewrite shocked_yield_Rmax; apply Rmax_lub; [lra|].
      apply IZR_le in Hs; assert (IZR s / 10000 <= 0) by (unfold Rdiv; nra); lra. }
    pose proof (price_bond_price_antitone_ytm face_value coupon_rate
                  (shocked_yield ytm s) ytm maturity_years) as H.
    unfold base; lra.
  - rewrite <- (py_round_0 4); apply py_round_mono.
    assert (Hge : ytm <= shocked_yield ytm s).
    { rewrite shocked_yield_Rmax.
      apply IZR_le in Hs; assert (0 <= IZR s / 10000) by (unfold Rdiv; nra).
      apply Rle_trans with (ytm + IZR s / 10000); [lra | apply Rmax_r]. }
    pose proof (price_bond_price_antitone_ytm face_value coupon_rate
                  ytm (shocked_yield ytm s) maturity_years) as H.
    unfold base; lra.
Qed.

Lemma stress_pnl_sign_witness :
  0 <= Scenario.pnl_per_bond
         (stress_scenario 1000 0.0726 0.0712 10 1 (price_bond 1000 0.0726 0.0712 10) (-100)).
Proof.
  apply (proj1 (stress_pnl_sign 1000 0.0726 0.0712 10 1 (-100) ltac:(lra) ltac:(lra)
                  ltac:(lra) ltac:(lra))).
  lia.
Defined.

(** The fields of [periodic_result] in terms of the three sums. *)
Lemma periodic_fields (f c y m : R) (N : nat) :
  n_periods m = Z.of_nat N -> (1 <= N)%nat ->
  let P := sum_periods N (spec_pv f c y N) in
  let S1 := sum_periods N (fun i => spec_pv f c y N i * INR i) in
  let S2 := sum_periods N (fun i => spec_pv f c y N i * INR i * (INR i + 1)) in
  periodic_result f c y m =
  {| price := py_round 4 P;
     macaulay_duration := py_round 4 (S1 / P / 2);
     modified_duration := py_round 4 (S1 / P / 2 / (1 + y / 2));
     convexity := py_round 4 (S2 / (P * (1 + y / 2) ^ 2 * 4));
     dv01 := py_round 4 (S1 / P / 2 / (1 + y / 2) * P / 10000);
     current_yield := py_round 4 ((if Rlt_dec 0 P then f * c / P else 0) * 100);
     price_to_face := py_round 4 (P / f * 100);
     ytm_pct := py_round 4 (y * 100);
     coupon_pct := py_round 4 (c * 100) |}.
Proof.
  intros HN H1 P S1 S2.
  destruct (periodic_sums f c y m N HN H1) as (E1 & E2 & E3).
  unfold periodic_result, semi_ytm; cbv zeta.
  rewrite E1, E2, E3; reflexivity.
Qed.

Lemma sum_periods_nonneg (N : nat) (g : nat -> R) :
  (forall i, (1 <= i <= N)%nat -> 0 <= g i) -> 0 <= sum_periods N g.
Proof.
  intros H.
  apply Rle_trans with (sum_periods N (fun _ => 0));
    [unfold sum_periods; rewrite sum_map_zero; lra|].
  apply sum_periods_le; exact H.
Qed.

Lemma INR_ge1 (i : nat) : (1 <= i)%nat -> 1 <= INR i.
Proof. intros H; apply (le_INR 1 i) in H; simpl in H; exact H. Qed.

(** Bounds of the weighted period sum: [P <= S1 <= N * P]. *)
Lemma weighted_sum_bounds (f c y : R) (N : nat) :
  0 < f -> 0 <= c -> -1 < y ->
  sum_periods N (spec_pv f c y N) <= sum_periods N (fun i => spec_pv f c y N i * INR i) <=
  INR N * sum_periods N (spec_pv f c y N).
Proof.
  intros Hf Hc Hy; split.
  - apply sum_periods_le; intros i Hi.
    pose proof (spec_pv_nonneg f c y N i Hf Hc Hy); pose proof (INR_ge1 i ltac:(lia)).
    nra.
  - rewrite <- sum_periods_scale; apply sum_periods_le; intros i Hi.
    pose proof (spec_pv_nonneg f c y N i Hf Hc Hy).
    assert (INR i <= INR N) by (apply le_INR; lia).
    nra.
Qed.

(** ** X3: every risk figure of a valid bond is non-negative *)

(** For face_value > 0, coupon_rate >= 0, ytm > -1 and maturity_years > 0,
    price, both durations, convexity, dv01, current_yield, price_to_face and
    coupon_pct of [price_bond] are all >= 0. *)
Theorem price_bond_fields_nonneg (face_value coupon_rate ytm maturity_years : R) :
  0 < face_value -> 0 <= coupon_rate -> -1 < ytm -> 0 < maturity_years ->
  let r := price_bond face_value coupon_rate ytm maturity_years in
  0 <= price r /\ 0 <= macaulay_duration r /\ 0 <= modified_duration r /\
  0 <= convexity r /\ 0 <= dv01 r /\ 0 <= current_yield r /\
  0 <= price_to_face r /\ 0 <= coupon_pct r.
Proof.
  intros Hf Hc Hy Hm r; subst r.
  destruct (Rlt_dec maturity_years 0.5) as [Hshort|Hlong].
  - rewrite price_bond_discount_branch by (apply n_periods_short; lra).
    unfold discount_result, price_discount; cbv zeta; cbn -[py_round Rpower].
    pose proof (Rpower_pos (1 + ytm) maturity_years).
    assert (0 <= face_value / Rpower (1 + ytm) maturity_years)
      by (apply Rdiv_nonneg; lra).
    repeat split; try lra; apply py_round_nonneg;
      repeat (apply Rdiv_nonneg || apply Rmult_le_pos); lra.
  - destruct (n_periods_periodic maturity_years) as (N & HN & H1); [lra|].
    rewrite price_bond_periodic_branch by lia.
    rewrite (periodic_fields _ _ _ _ N HN H1); cbv zeta; cbn [price macaulay_duration
      modified_duration convexity dv01 current_yield price_to_face coupon_pct].
    pose proof (sum_periods_pv_pos face_value coupon_rate ytm N Hf Hc Hy H1) as HP.
    pose proof (weighted_sum_bounds face_value coupon_rate ytm N Hf Hc Hy) as [HS1 _].
    assert (HS2 : 0 <= sum_periods N (fun i => spec_pv face_value coupon_rate ytm N i
                                              * INR i * (INR i + 1))).
    { apply sum_periods_nonneg; intros i Hi.
      pose proof (spec_pv_nonneg face_value coupon_rate ytm N i Hf Hc Hy).
      pose proof (INR_ge1 i ltac:(lia)).
      apply Rmult_le_pos; [apply Rmult_le_pos|]; lra. }
    assert (Hd : 0 < (1 + ytm / 2) ^ 2) by (apply pow_lt; lra).
    destruct (Rlt_dec 0 _) as [_|Hn]; [|lra].
    repeat split; apply py_round_nonneg;
      repeat (apply Rdiv_nonneg || apply Rmult_le_pos); try lra.
    apply Rmult_lt_0_compat; [apply Rmult_lt_0_compat|]; lra.
Qed.

Lemma price_bond_fields_nonneg_witness :
  0 <= dv01 (price_bond 1000 0.0726 0.0712 10) /\
  0 <= dv01 (price_bond 1000 0 0.0685 0.25).
Proof.
  split.
  - apply (price_bond_fields_nonneg 1000 0.0726 0.0712 10); lra.
  - apply (price_bond_fields_nonneg 1000 0 0.0685 0.25); lra.
Defined.

Lemma py_round_half : py_round 4 0.5 = 0.5.
Proof.
  replace 0.5 with (IZR 5000 / 10 ^ 4) by (simpl; lra).
  apply py_round_IZR.
Qed.

Lemma n_periods_le_twice (m : R) (N : nat) :
  0 <= m -> n_periods m = Z.of_nat N -> INR N <= m * 2.
Proof.
  intros Hm HN.
  rewrite INR_IZR_INZ, <- HN, n_periods_floor by lra.
  apply base_Int_part.
Qed.

(** ** X4: Macaulay duration lies within the life of the bond *)

(** For a valid bond, macaulay_duration never exceeds maturity_years
    rounded to 4 decimals; in the periodic branch (maturity_years >= 0.5) it is
    at least 0.5, the first coupon date. *)
Theorem price_bond_macaulay_bounds (face_value coupon_rate ytm maturity_years : R) :
  0 < face_value -> 0 <= coupon_rate -> -1 < ytm -> 0 < maturity_years ->
  let r := price_bond face_value coupon_rate ytm maturity_years in
  macaulay_duration r <= py_round 4 maturity_years /\
  (0.5 <= maturity_years -> 0.5 <= macaulay_duration r).
Proof.
  intros Hf Hc Hy Hm r; subst r.
  destruct (Rlt_dec maturity_years 0.5) as [Hshort|Hlong].
  - rewrite price_bond_discount_branch by (apply n_periods_short; lra).
    unfold discount_result; cbv zeta; cbn [macaulay_duration].
    split; [apply Rle_refl | intros; lra].
  - destruct (n_periods_periodic maturity_years) as (N & HN & H1); [lra|].
    rewrite price_bond_periodic_branch by lia.
    rewrite (periodic_fields _ _ _ _ N HN H1); cbv zeta; cbn [macaulay_duration].
    pose proof (sum_periods_pv_pos face_value coupon_rate ytm N Hf Hc Hy H1) as HP.
    pose proof (weighted_sum_bounds face_value coupon_rate ytm N Hf Hc Hy) as [HS1 HS2].
    pose proof (n_periods_le_twice maturity_years N ltac:(lra) HN) as HNm.
    set (P := sum_periods N (spec_pv face_value coupon_rate ytm N)) in *.
    set (S1 := sum_periods N (fun i => spec_pv face_value coupon_rate ytm N i * INR i)) in *.
    split.
    + apply py_round_mono.
      apply Rle_trans with (INR N * P / P / 2); [|field_simplify; lra].
      unfold Rdiv; apply Rmult_le_compat_r; [lra|].
      apply Rmult_le_compat_r; [apply Rlt_le, Rinv_0_lt_compat; lra | exact HS2].
    + intros _; rewrite <- py_round_half; apply py_round_mono.
      apply Rle_trans with (P / P / 2); [field_simplify; lra|].
      unfold Rdiv; apply Rmult_le_compat_r; [lra|].
      apply Rmult_le_compat_r; [apply Rlt_le, Rinv_0_lt_compat; lra | exact HS1].
Qed.

Lemma price_bond_macaulay_bounds_witness :
  macaulay_duration (price_bond 1000 0.0726 0.0712 10) <= py_round 4 10 /\
  0.5 <= macaulay_duration (price_bond 1000 0.0726 0.0712 10).
Proof.
  pose proof (price_bond_macaulay_bounds 1000 0.0726 0.0712 10 ltac:(lra) ltac:(lra)
                ltac:(lra) ltac:(lra)) as [H1 H2].
  split; [exact H1 | apply H2; lra].
Defined.

(** With a zero coupon only the last period carries a cash flow. *)
Lemma sum_periods_zero_coupon (f y : R) (k : nat) (w : nat -> R) :
  sum_periods (S k) (fun i => spec_pv f 0 y (S k) i * w i) =
  spec_pv f 0 y (S k) (S k) * w (S k).
Proof.
  rewrite sum_periods_S.
  rewrite (sum_periods_ext k _ (fun _ => 0)).
  - unfold sum_periods; rewrite sum_map_zero; ring.
  - intros i Hi; unfold spec_pv, spec_cash_flow.
    replace (Nat.eqb i (S k)) with false by (symmetry; apply Nat.eqb_neq; lia).
    unfold Rdiv; ring.
Qed.

(** ** X5: a zero-coupon bond's duration is its remaining life *)

(** With coupon_rate = 0 in the periodic branch (maturity_years >= 0.5),
    macaulay_duration is exactly n_periods / 2 years. *)
Theorem price_bond_zero_coupon_macaulay (face_value ytm maturity_years : R) :
  0 < face_value -> -1 < ytm -> 0.5 <= maturity_years ->
  macaulay_duration (price_bond face_value 0 ytm maturity_years) =
  IZR (n_periods maturity_years) / 2.
Proof.
  intros Hf Hy Hm.
  destruct (n_periods_periodic maturity_years) as (N & HN & H1); [lra|].
  rewrite price_bond_periodic_branch by lia.
  rewrite (periodic_fields _ _ _ _ N HN H1); cbv zeta; cbn [macaulay_duration].
  pose proof (spec_pv_last_pos face_value 0 ytm N Hf ltac:(lra) Hy) as Hpos.
  destruct N as [|k]; [lia|].
  rewrite sum_periods_zero_coupon.
  assert (HP : sum_periods (S k) (spec_pv face_value 0 ytm (S k)) =
                spec_pv face_value 0 ytm (S k) (S k) * 1).
  { pose proof (sum_periods_zero_coupon face_value ytm k (fun _ => 1)) as E.
    cbv beta in E; rewrite <- E; apply sum_periods_ext; intros; ring. }
  rewrite HP.
  rewrite HN, <- INR_IZR_INZ.
  replace (spec_pv face_value 0 ytm (S k) (S k) * INR (S k) /
           (spec_pv face_value 0 ytm (S k) (S k) * 1) / 2)
    with (IZR (Z.of_nat (S k) * 5000) / 10 ^ 4)
    by (rewrite mult_IZR, <- INR_IZR_INZ; simpl; field; lra).
  rewrite py_round_IZR, mult_IZR, <- INR_IZR_INZ; simpl; field.
Qed.

Lemma price_bond_zero_coupon_macaulay_witness :
  macaulay_duration (price_bond 1000 0 0.07 5) = IZR (n_periods 5) / 2.
Proof. apply price_bond_zero_coupon_macaulay; lra. Defined.

(** ** X6: modified duration does not exceed Macaulay duration *)

(** For a valid bond with ytm >= 0, modified_duration <= macaulay_duration. *)
Theorem price_bond_modified_le_macaulay (face_value coupon_rate ytm maturity_years : R) :
  0 < face_value -> 0 <= coupon_rate -> 0 <= ytm -> 0 < maturity_years ->
  let r := price_bond face_value coupon_rate ytm maturity_years in
  modified_duration r <= macaulay_duration r.
Proof.
  intros Hf Hc Hy Hm r; subst r.
  assert (Hdiv : forall a d, 0 <= a -> 1 <= d -> a / d <= a).
  { intros a d Ha Hd; unfold Rdiv.
    assert (/ d <= 1) by (rewrite <- Rinv_1; apply Rinv_le_contravar; lra).
    assert (0 < / d) by (apply Rinv_0_lt_compat; lra).
    nra. }
  destruct (Rlt_dec maturity_years 0.5) as [Hshort|Hlong].
  - rewrite price_bond_discount_branch by (apply n_periods_short; lra).
    cbn; apply py_round_mono, Hdiv; lra.
  - destruct (n_periods_periodic maturity_years) as (N & HN & H1); [lra|].
    rewrite price_bond_periodic_branch by lia.
    rewrite (periodic_fields _ _ _ _ N HN H1); cbv zeta;
      cbn [macaulay_duration modified_duration].
    apply py_round_mono, Hdiv; [|lra].
    pose proof (sum_periods_pv_pos face_value coupon_rate ytm N Hf Hc ltac:(lra) H1).
    pose proof (weighted_sum_bounds face_value coupon_rate ytm N Hf Hc ltac:(lra)) as [HS1 _].
    repeat apply Rdiv_nonneg; lra.
Qed.

Lemma price_bond_modified_le_macaulay_witness :
  modified_duration (price_bond 1000 0.0726 0.0712 10) <=
  macaulay_duration (price_bond 1000 0.0726 0.0712 10).
Proof. apply price_bond_modified_le_macaulay; lra. Defined.

(** A bond whose coupon equals its yield is priced at its face value. *)
Lemma sum_periods_pv_par (f c : R) (N : nat) :
  -1 < c -> (1 <= N)%nat -> sum_periods N (spec_pv f c c N) = f.
Proof.
  intros Hc HN.
  rewrite sum_periods_pv_split by (assumption || lia).
  pose proof (annuity_identity (c / 2) N ltac:(lra)) as A.
  transitivity (f * (c / 2 * sum_periods N (fun i => / (1 + c / 2) ^ i) +
                     / (1 + c / 2) ^ N)); [unfold Rdiv; ring|].
  rewrite A; ring.
Qed.

(** ** X7: a par bond *)

(** In the periodic branch, when coupon_rate = ytm (both >= 0) the
    unrounded price equals face_value, price_to_face is exactly 100 and
    current_yield equals coupon_pct. *)
Theorem price_bond_par (face_value rate maturity_years : R) :
  0 < face_value -> 0 <= rate -> 0.5 <= maturity_years ->
  let r := price_bond face_value rate rate maturity_years in
  price_periodic face_value rate rate maturity_years = face_value /\
  price r = py_round 4 face_value /\
  price_to_face r = 100 /\
  current_yield r = coupon_pct r.
Proof.
  intros Hf Hc Hm r; subst r.
  destruct (n_periods_periodic maturity_years) as (N & HN & H1); [lra|].
  pose proof (sum_periods_pv_par face_value rate N ltac:(lra) H1) as Hpar.
  split.
  - destruct (periodic_sums face_value rate rate maturity_years N HN H1) as (E & _).
    rewrite E; exact Hpar.
  - rewrite price_bond_periodic_branch by lia.
    rewrite (periodic_fields _ _ _ _ N HN H1); cbv zeta;
      cbn [price price_to_face current_yield coupon_pct].
    rewrite Hpar.
    destruct (Rlt_dec 0 face_value) as [_|Hn]; [|lra].
    split; [reflexivity|]; split.
    + replace (face_value / face_value * 100) with (IZR 1000000 / 10 ^ 4)
        by (simpl; field; lra).
      rewrite py_round_IZR; simpl; field.
    + f_equal; field; lra.
Qed.

Lemma price_bond_par_witness :
  price_to_face (price_bond 1000 0.07 0.07 10) = 100.
Proof.
  apply (price_bond_par 1000 0.07 10); lra.
Defined.

(** ** X8: premium and discount bonds *)

(** In the periodic branch, a bond yielding more than its coupon is priced
    below face value (price_to_face <= 100 after rounding), and one yielding
    less than its coupon above face value (price_to_face >= 100). *)
Theorem price_bond_premium_discount (face_value coupon_rate ytm maturity_years : R) :
  0 < face_value -> 0 <= coupon_rate -> -1 < ytm -> 0.5 <= maturity_years ->
  let r := price_bond face_value coupon_rate ytm maturity_years in
  (coupon_rate < ytm ->
     price_periodic face_value coupon_rate ytm maturity_years < face_value /\
     price_to_face r <= 100) /\
  (ytm < coupon_rate ->
     face_value < price_periodic face_value coupon_rate ytm maturity_years /\
     100 <= price_to_face r).
Proof.
  intros Hf Hc Hy Hm r; subst r.
  destruct (n_periods_periodic maturity_years) as (N & HN & H1); [lra|].
  pose proof (sum_periods_pv_par face_value coupon_rate N ltac:(lra) H1) as Hpar.
  destruct (periodic_sums face_value coupon_rate ytm maturity_years N HN H1) as (E & _).
  rewrite price_bond_periodic_branch by lia.
  rewrite (periodic_fields _ _ _ _ N HN H1); cbv zeta; cbn [price_to_face].
  rewrite E.
  assert (H100 : py_round 4 100 = 100).
  { replace 100 with (IZR 1000000 / 10 ^ 4) at 1 by (simpl; field).
    rewrite py_round_IZR; simpl; field. }
  split; intros Hlt.
  - assert (Hp : sum_periods N (spec_pv face_value coupon_rate ytm N) < face_value).
    { rewrite <- Hpar at 2.
      apply spec_dcf_price_strict_anti; auto; lra. }
    split; [exact Hp|].
    apply Rle_trans with (py_round 4 100); [apply py_round_mono | rewrite H100; lra].
    apply Rle_trans with (face_value / face_value * 100); [|right; field; lra].
    unfold Rdiv; apply Rmult_le_compat_r; [lra|].
    apply Rmult_le_compat_r; [apply Rlt_le, Rinv_0_lt_compat|]; lra.
  - assert (Hp : face_value < sum_periods N (spec_pv face_value coupon_rate ytm N)).
    { rewrite <- Hpar at 1.
      apply spec_dcf_price_strict_anti; auto; lra. }
    split; [exact Hp|].
    apply Rle_trans with (py_round 4 100); [rewrite H100; lra | apply py_round_mono].
    apply Rle_trans with (face_value / face_value * 100); [right; field; lra|].
    unfold Rdiv; apply Rmult_le_compat_r; [lra|].
    apply Rmult_le_compat_r; [apply Rlt_le, Rinv_0_lt_compat|]; lra.
Qed.

Lemma price_bond_premium_discount_witness :
  price_to_face (price_bond 1000 0.0726 0.0812 10) <= 100.
Proof.
  apply (proj2 (proj1 (price_bond_premium_discount 1000 0.0726 0.0812 10 ltac:(lra)
                         ltac:(lra) ltac:(lra) ltac:(lra)) ltac:(lra))).
Defined.

(** ** X9: the ratios of a result do not depend on the face value *)

(** The fields of a result that do not scale with the face value. *)
Definition scale_free_fields (r : PricingResult) : list R :=
  [macaulay_duration r; modified_duration r; convexity r; current_yield r;
   price_to_face r; ytm_pct r; coupon_pct r].

Lemma spec_pv_scale (f c y : R) (N i : nat) :
  -1 < y -> spec_pv f c y N i = f * spec_pv 1 c y N i.
Proof.
  intros Hy.
  assert (0 < (1 + y / 2) ^ i) by (apply pow_lt; lra).
  unfold spec_pv, spec_cash_flow; destruct (Nat.eqb i N); field; lra.
Qed.

Lemma scale_free_fields_unit (f c y m : R) :
  0 < f -> 0 <= c -> -1 < y -> 0 < m ->
  scale_free_fields (price_bond f c y m) = scale_free_fields (price_bond 1 c y m).
Proof.
  intros Hf Hc Hy Hm.
  destruct (Rlt_dec m 0.5) as [Hshort|Hlong].
  - rewrite !price_bond_discount_branch by (apply n_periods_short; lra).
    pose proof (Rpower_pos (1 + y) m).
    unfold scale_free_fields, discount_result, price_discount; cbv zeta;
      cbn [macaulay_duration modified_duration convexity current_yield price_to_face
           ytm_pct coupon_pct].
    repeat match goal with |- cons _ _ = cons _ _ => apply (f_equal2 cons) end;
      try reflexivity; apply (f_equal (py_round 4)); field; repeat split; lra.
  - destruct (n_periods_periodic m) as (N & HN & H1); [lra|].
    rewrite !price_bond_periodic_branch by lia.
    rewrite !(periodic_fields _ _ _ _ N HN H1); cbv zeta.
    unfold scale_free_fields;
      cbn [macaulay_duration modified_duration convexity current_yield price_to_face
           ytm_pct coupon_pct].
    pose proof (sum_periods_pv_pos 1 c y N ltac:(lra) Hc Hy H1) as HP.
    assert (Hd : 0 < 1 + y / 2) by lra.
    rewrite (sum_periods_ext N (spec_pv f c y N) (fun i => f * spec_pv 1 c y N i))
      by (intros; apply spec_pv_scale, Hy).
    rewrite (sum_periods_ext N (fun i => spec_pv f c y N i * INR i)
               (fun i => f * (spec_pv 1 c y N i * INR i)))
      by (intros; rewrite spec_pv_scale by exact Hy; ring).
    rewrite (sum_periods_ext N (fun i => spec_pv f c y N i * INR i * (INR i + 1))
               (fun i => f * (spec_pv 1 c y N i * INR i * (INR i + 1))))
      by (intros; rewrite spec_pv_scale by exact Hy; ring).
    rewrite !sum_periods_scale.
    set (P := sum_periods N (spec_pv 1 c y N)) in *.
    destruct (Rlt_dec 0 (f * P)) as [_|Hn]; [|exfalso; apply Hn, Rmult_lt_0_compat; lra].
    destruct (Rlt_dec 0 P) as [_|Hn]; [|lra].
    assert (0 < (1 + y / 2) ^ 2) by (apply pow_lt; lra).
    repeat match goal with |- cons _ _ = cons _ _ => apply (f_equal2 cons) end;
      try reflexivity; apply (f_equal (py_round 4)); field; repeat split; lra.
Qed.

(** For two positive face values and otherwise equal inputs, [price_bond]
    returns the same durations, convexity, current_yield, price_to_face,
    ytm_pct and coupon_pct: only price and dv01 scale with the face value. *)
Theorem price_bond_face_value_scale_free
    (face_value1 face_value2 coupon_rate ytm maturity_years : R) :
  0 < face_value1 -> 0 < face_value2 -> 0 <= coupon_rate -> -1 < ytm -> 0 < maturity_years ->
  scale_free_fields (price_bond face_value1 coupon_rate ytm maturity_years) =
  scale_free_fields (price_bond face_value2 coupon_rate ytm maturity_years).
Proof.
  intros H1 H2 Hc Hy Hm.
  rewrite (scale_free_fields_unit face_value1), (scale_free_fields_unit face_value2);
    auto.
Qed.

Lemma price_bond_face_value_scale_free_witness :
  scale_free_fields (price_bond 1000 0.0726 0.0712 10) =
  scale_free_fields (price_bond 100 0.0726 0.0712 10).
Proof. apply price_bond_face_value_scale_free; lra. Defined.

(** ** X10: floored scenarios coincide *)

(** Two shocks whose raw shocked yields ytm + shock_bps/10000 are both at
    most 0.0001 are both repriced at 0.0001: their scenarios agree on
    shocked_ytm, price, pnl_per_bond, total_pnl and pnl_pct. *)
Theorem stress_floored_scenarios_agree
    (face_value coupon_rate ytm maturity_years quantity : R) (s1 s2 : Z) :
  ytm + IZR s1 / 10000 <= 0.0001 -> ytm + IZR s2 / 10000 <= 0.0001 ->
  let base := price_bond face_value coupon_rate ytm maturity_years in
  let sc1 := stress_scenario face_value coupon_rate ytm maturity_years quantity base s1 in
  let sc2 := stress_scenario face_value coupon_rate ytm maturity_years quantity base s2 in
  Scenario.shocked_ytm sc1 = Scenario.shocked_ytm sc2 /\
  Scenario.price sc1 = Scenario.price sc2 /\
  Scenario.pnl_per_bond sc1 = Scenario.pnl_per_bond sc2 /\
  Scenario.total_pnl sc1 = Scenario.total_pnl sc2 /\
  Scenario.pnl_pct sc1 = Scenario.pnl_pct sc2.
Proof.
  intros H1 H2 base sc1 sc2.
  assert (E1 : shocked_yield ytm s1 = 0.0001)
    by (rewrite shocked_yield_Rmax; apply Rmax_left; exact H1).
  assert (E2 : shocked_yield ytm s2 = 0.0001)
    by (rewrite shocked_yield_Rmax; apply Rmax_left; exact H2).
  unfold sc1, sc2, stress_scenario; rewrite E1, E2; cbn.
  repeat split.
Qed.

Lemma stress_floored_scenarios_agree_witness :
  Scenario.price (stress_scenario 1000 0.0726 0.0050 10 1
                    (price_bond 1000 0.0726 0.0050 10) (-300)) =
  Scenario.price (stress_scenario 1000 0.0726 0.0050 10 1
                    (price_bond 1000 0.0726 0.0050 10) (-200)).
Proof.
  apply (stress_floored_scenarios_agree 1000 0.0726 0.0050 10 1 (-300) (-200));
    simpl; lra.
Defined.

(** ** X11: the price at zero yield *)

(** At ytm = 0 the price is the undiscounted sum of the cash flows:
    face_value plus n_periods semi-annual coupons (none in the discount
    branch), rounded to 4 decimals. *)
Theorem price_bond_zero_yield (face_value coupon_rate maturity_years : R) :
  0 < maturity_years ->
  price (price_bond face_value coupon_rate 0 maturity_years) =
  py_round 4 (face_value + IZR (n_periods maturity_years) * (face_value * coupon_rate / 2)).
Proof.
  intros Hm.
  destruct (Rlt_dec maturity_years 0.5) as [Hshort|Hlong].
  - pose proof (n_periods_short maturity_years ltac:(lra)) as H0.
    rewrite price_bond_discount_branch by exact H0.
    unfold discount_result, price_discount; cbv zeta; cbn [price].
    rewrite H0, Rplus_0_r, Rpower_1_base; f_equal; simpl; field.
  - destruct (n_periods_periodic maturity_years) as (N & HN & H1); [lra|].
    rewrite (price_bond_price_periodic _ _ _ _ N HN H1).
    change (spec_dcf_price face_value coupon_rate 0 N)
      with (sum_periods N (spec_pv face_value coupon_rate 0 N)).
    rewrite sum_periods_pv_split by (lia || lra).
    rewrite (sum_periods_ext N _ (fun _ => 1))
      by (intros; replace (1 + 0 / 2) with 1 by field; rewrite pow1; apply Rinv_1).
    rewrite sum_periods_const, HN, <- INR_IZR_INZ.
    replace (1 + 0 / 2) with 1 by field; rewrite pow1.
    f_equal; field.
Qed.

Lemma price_bond_zero_yield_witness :
  price (price_bond 1000 0.06 0 10) =
  py_round 4 (1000 + IZR (n_periods 10) * (1000 * 0.06 / 2)).
Proof. apply price_bond_zero_yield; lra. Defined.

(** ** X12: valid inputs raise nothing *)

(** For face_value > 0, coupon_rate >= 0, ytm > -1 and maturity_years > 0
    [price_bond] returns normally (no exception) and every field of the
    result is finite (no nan or inf): the code's result is the model's. *)
Theorem price_bond_checked_valid (face_value coupon_rate ytm maturity_years : R) :
  0 < face_value -> 0 <= coupon_rate -> -1 < ytm -> 0 < maturity_years ->
  price_bond_checked face_value coupon_rate ytm maturity_years =
  Returned (price_bond face_value coupon_rate ytm maturity_years).
Proof.
  intros Hf Hc Hy Hm.
  destruct (Rlt_dec maturity_years 0.5) as [Hshort|Hlong].
  - apply price_bond_checked_discount_returned; [apply n_periods_short| |]; lra.
  - destruct (n_periods_periodic maturity_years) as (N & HN & H1); [lra|].
    apply price_bond_checked_periodic_returned; [lia | unfold semi_ytm; lra | | lra].
    rewrite (price_periodic_dcf _ _ _ _ N HN H1).
    change (spec_dcf_price face_value coupon_rate ytm N)
      with (sum_periods N (spec_pv face_value coupon_rate ytm N)).
    apply Rgt_not_eq, sum_periods_pv_pos; assumption.
Qed.

Lemma price_bond_checked_valid_witness :
  price_bond_checked 1000 0.0726 0.0712 10 = Returned (price_bond 1000 0.0726 0.0712 10).
Proof. apply price_bond_checked_valid; lra. Defined.

(** ** X13: a zero base price in the discount branch raises *)

(** In the discount branch (0 < maturity_years < 0.5), with 1 + ytm > 0 and
    face_value <> 0, if the rounded base price is 0 then [stress_test_bond]
    raises ZeroDivisionError at line 103 in its first iteration. *)
Theorem stress_test_bond_checked_zero_base (face_value coupon_rate ytm maturity_years quantity : R) :
  0 < maturity_years < 0.5 -> 0 < 1 + ytm -> face_value <> 0 ->
  price (price_bond face_value coupon_rate ytm maturity_years) = 0 ->
  stress_test_bond_checked face_value coupon_rate ytm maturity_years quantity =
  Raised ZeroDivisionError.
Proof.
  intros Hm Hy Hf Hp.
  pose proof (n_periods_short _ Hm) as Hn.
  unfold stress_test_bond_checked.
  rewrite (price_bond_checked_discount_returned _ _ _ _ Hn Hy Hf).
  cbn [shocks map seq_outcomes].
  unfold stress_scenario_checked at 1.
  rewrite (price_bond_checked_discount_returned _ _ _ _ Hn); [|rewrite shocked_yield_Rmax|exact Hf].
  - destruct (Req_EM_T _ 0) as [_|Hne]; [|contradiction].
    rewrite Hn; reflexivity.
  - pose proof (Rmax_l 0.0001 (ytm + IZR (-300) / 10000)); lra.
Qed.

Lemma stress_test_bond_checked_zero_base_witness :
  stress_test_bond_checked 0.000001 0 0.0685 0.25 1 = Raised ZeroDivisionError.
Proof.
  apply stress_test_bond_checked_zero_base; try lra.
  rewrite price_bond_discount_branch by (apply n_periods_short; lra).
  unfold discount_result, price_discount; cbn [price].
  apply py_round_small.
  assert (H1 : 1 <= Rpower (1 + 0.0685) 0.25).
  { apply Rle_trans with (Rpower (1 + 0.0685) 0); [rewrite Rpower_O; lra|].
    apply Rle_Rpower; lra. }
  assert (H2 : / Rpower (1 + 0.0685) 0.25 <= 1).
  { apply Rle_trans with (/ 1); [apply Rinv_le_contravar; lra | rewrite Rinv_1; lra]. }
  assert (H3 : 0 < / Rpower (1 + 0.0685) 0.25) by (apply Rinv_0_lt_compat; lra).
  simpl; unfold Rdiv; split; nra.
Defined.
